(** * changesets-changelog-github-local: the changelog-line formatter

    A shallow embedding of [src/_utils.ts] and [src/index.ts], and the
    properties of their helpers ([validate], [cleanSummary], [getPrNumber],
    [getSuffix]) and of the two changelog functions.

    Conventions of the embedding:
    - a JavaScript string is the list of its UTF-16 code units, each a [N];
    - a regular expression literal is a term of [regex], run by a
      backtracking matcher that follows the ECMAScript matching order
      (ordered alternation, greedy quantifiers, leftmost start position);
    - a JavaScript [number] is [NaN], an infinity or an integer: the
      numbers the program handles are pull-request numbers read by
      [parseInt], which rounds the value of the digits to the nearest
      double; numbers are printed in decimal, which is what
      [Number::toString] prints of an integer below 2^53 (of a larger
      double it prints the shortest digits that read back as that double,
      and exponent notation from 10^21 on);
    - a call that may throw returns an [outcome]; the calls into the git
      binding and [console.warn] are recorded in a trace. *)

From Stdlib Require Import NArith ZArith Ascii String DecimalString DecimalPos DecimalZ.
From Stdlib Require Import List Bool Lia.
From stdpp Require Import base option list gmap.

Set Default Proof Using "Type".
Open Scope N_scope.

(** ** Strings *)

Abbreviation str := (list N).

(** A string literal of the source, as code units. *)
Fixpoint js (s : string) : str :=
  match s with
  | EmptyString => []
  | String c t => N_of_ascii c :: js t
  end.

(** [WhiteSpace] and [LineTerminator] of ECMAScript: the code units that
    [\s] matches and that [String.prototype.trim] strips. *)
Definition is_line_terminator (c : N) : bool :=
  (c =? 10) || (c =? 13) || (c =? 0x2028) || (c =? 0x2029).

Definition is_space (c : N) : bool :=
  (c =? 9) || (c =? 11) || (c =? 12) || (c =? 32) || (c =? 160)
  || (c =? 0x1680) || ((0x2000 <=? c) && (c <=? 0x200a))
  || (c =? 0x202f) || (c =? 0x205f) || (c =? 0x3000) || (c =? 0xfeff)
  || is_line_terminator c.

(** [\d] and [\S]. *)
Definition is_digit (c : N) : bool := (48 <=? c) && (c <=? 57).
Definition non_space (c : N) : bool := negb (is_space c).

Fixpoint drop_while (p : N -> bool) (s : str) : str :=
  match s with
  | [] => []
  | c :: t => if p c then drop_while p t else s
  end.

(** [String.prototype.trim]. *)
Definition trimStart (s : str) : str := drop_while is_space s.
Definition trimEnd (s : str) : str := rev (drop_while is_space (rev s)).
Definition trim (s : str) : str := trimEnd (trimStart s).

(** [s.split(sep)] for a one-unit separator. The array it returns is never
    empty, so it is given as its element 0 and the remaining elements:
    [s.split(sep)[0]] is the first component and the destructuring
    [[first, ...rest] = s.split(sep)] is the pair. *)
Fixpoint split (sep : N) (s : str) : str * list str :=
  match s with
  | [] => ([], [])
  | c :: t =>
      let '(h, r) := split sep t in
      if c =? sep then ([], h :: r) else (c :: h, r)
  end.

(** [Array.prototype.join]. *)
Fixpoint join (sep : str) (l : list str) : str :=
  match l with
  | [] => []
  | [x] => x
  | x :: t => x ++ sep ++ join sep t
  end.

(** [String.prototype.slice(0, n)]. *)
Definition slice0 (n : nat) (s : str) : str := take n s.

(** ** Regular expressions *)

(** The fragment of the pattern syntax that the source uses. Quantifiers
    are applied to one-unit atoms only ([\s*], [\d+], [#?]), so the star
    takes a character set. *)
Inductive regex :=
| REmpty
| RChar (c : N)
| RSet (p : N -> bool)
| RSeq (a b : regex)
| RAlt (a b : regex)
| RStar (p : N -> bool)
| RGroup (i : nat) (a : regex)
| RBol
| REol.

Record flags := Flags { ignoreCase : bool; multiline : bool; global : bool }.

Definition rseq (l : list regex) : regex := foldr RSeq REmpty l.
Definition lit (s : string) : regex := rseq (map RChar (js s)).
Definition RPlus (p : N -> bool) : regex := RSeq (RSet p) (RStar p).
Definition ROpt (a : regex) : regex := RAlt a REmpty.

(** [Canonicalize] without the [u] flag: upper-casing of one code unit. A
    unit of 128 or more never canonicalizes to a unit below 128, and the
    literals of the source are ASCII, so the mapping is spelled out on
    ASCII only. *)
Definition canonicalize (fl : flags) (c : N) : N :=
  if ignoreCase fl && (97 <=? c) && (c <=? 122) then c - 32 else c.

(** A position of the matcher: the units before it (nearest first), the
    units from it on, and the captures made so far. *)
Record mstate := MState { before : str; rest : str; caps : gmap nat str }.

Definition at_bol (fl : flags) (bef : str) : bool :=
  match bef with
  | [] => true
  | c :: _ => multiline fl && is_line_terminator c
  end.

Definition at_eol (fl : flags) (rst : str) : bool :=
  match rst with
  | [] => true
  | c :: _ => multiline fl && is_line_terminator c
  end.

(** The text between two positions of one string. *)
Definition consumed (s0 s1 : mstate) : str :=
  take (length (rest s0) - length (rest s1))%nat (rest s0).

(** Greedy star: as many units as possible, then one fewer, and so on. *)
Fixpoint star_match (p : N -> bool) (k : mstate -> option mstate)
    (bef rst : str) (cs : gmap nat str) : option mstate :=
  match rst with
  | c :: t =>
      if p c then
        match star_match p k (c :: bef) t cs with
        | Some r => Some r
        | None => k (MState bef rst cs)
        end
      else k (MState bef rst cs)
  | [] => k (MState bef rst cs)
  end.

(** The backtracking matcher, in continuation-passing style: [k] matches
    what follows in the pattern, and [None] is failure. *)
Fixpoint rmatch (fl : flags) (r : regex) (st : mstate)
    (k : mstate -> option mstate) : option mstate :=
  match r with
  | REmpty => k st
  | RChar c =>
      match rest st with
      | d :: t =>
          if canonicalize fl d =? canonicalize fl c
          then k (MState (d :: before st) t (caps st)) else None
      | [] => None
      end
  | RSet p =>
      match rest st with
      | d :: t => if p d then k (MState (d :: before st) t (caps st)) else None
      | [] => None
      end
  | RSeq a b => rmatch fl a st (fun st' => rmatch fl b st' k)
  | RAlt a b =>
      match rmatch fl a st k with
      | Some r => Some r
      | None => rmatch fl b st k
      end
  | RStar p => star_match p k (before st) (rest st) (caps st)
  | RGroup i a =>
      rmatch fl a st
        (fun st' => k (MState (before st') (rest st') (<[i := consumed st st']> (caps st'))))
  | RBol => if at_bol fl (before st) then k st else None
  | REol => if at_eol fl (rest st) then k st else None
  end.

(** [RegExpBuiltinExec] from a position on: the leftmost position at which
    the pattern matches, with the position the match ends at. *)
Fixpoint exec_from (fl : flags) (r : regex) (bef rst : str)
    : option (mstate * mstate) :=
  match rmatch fl r (MState bef rst ∅) Some with
  | Some e => Some (MState bef rst ∅, e)
  | None =>
      match rst with
      | [] => None
      | c :: t => exec_from fl r (c :: bef) t
      end
  end.

Definition exec (fl : flags) (r : regex) (s : str) : option (mstate * mstate) :=
  exec_from fl r [] s.

(** [RegExp.prototype.test]. *)
Definition test (fl : flags) (r : regex) (s : str) : bool :=
  match exec fl r s with Some _ => true | None => false end.

(** The loop of [RegExp.prototype[Symbol.replace]] for a global pattern, as
    one scan from left to right: [skip] counts the units of the current
    match still to be dropped; after an empty match the scan moves one
    unit on. *)
Fixpoint replace_scan (fl : flags) (r : regex) (repl : str)
    (bef rst : str) (skip : nat) : str :=
  match skip with
  | S n =>
      match rst with
      | c :: t => replace_scan fl r repl (c :: bef) t n
      | [] => []
      end
  | O =>
      match rmatch fl r (MState bef rst ∅) Some with
      | Some e =>
          repl ++
          match (length rst - length (rest e))%nat, rst with
          | _, [] => []
          | O, c :: t => c :: replace_scan fl r repl (c :: bef) t O
          | S n, c :: t => replace_scan fl r repl (c :: bef) t n
          end
      | None =>
          match rst with
          | c :: t => c :: replace_scan fl r repl (c :: bef) t O
          | [] => []
          end
      end
  end.

(** [s.replace(re, repl)] for a replacement string without [$] patterns:
    every match when the pattern is global, else the first one. *)
Definition replace (fl : flags) (r : regex) (repl : str) (s : str) : str :=
  if global fl then replace_scan fl r repl [] s O
  else
    match exec fl r s with
    | Some (b, e) => rev (before b) ++ repl ++ rest e
    | None => s
    end.

(** ** Values, failures and effects *)

Inductive number := NaN | Infinity (negative : bool) | Int (z : Z).

(** The values an untyped options argument can hold. An object is the
    finite map of its own properties. *)
#[warnings="-register-all"]
Inductive jsval :=
| JUndefined
| JNull
| JBool (b : bool)
| JNumber (n : number)
| JString (s : str)
| JObject (props : gmap str jsval).

Definition number_truthy (n : number) : bool :=
  match n with
  | NaN => false
  | Infinity _ => true
  | Int z => negb (z =? 0)%Z
  end.

Definition string_truthy (s : str) : bool :=
  match s with [] => false | _ :: _ => true end.

(** [ToBoolean]. *)
Definition truthy (v : jsval) : bool :=
  match v with
  | JUndefined | JNull => false
  | JBool b => b
  | JNumber n => number_truthy n
  | JString s => string_truthy s
  | JObject _ => true
  end.

(** A property read [v.key] on a value that is neither [null] nor
    [undefined]; a primitive has no own property of the names used here. *)
Definition get (v : jsval) (key : str) : jsval :=
  match v with
  | JObject props => default JUndefined (props !! key)
  | _ => JUndefined
  end.

(** An optional argument ([T | undefined]) read as a value. *)
Definition of_number (pr : option number) : jsval :=
  match pr with Some n => JNumber n | None => JUndefined end.
Definition of_string (s : option str) : jsval :=
  match s with Some x => JString x | None => JUndefined end.

(** A thrown [Error], by its message. *)
Record Error := MkError { err_message : str }.

Inductive outcome (A : Type) :=
| Returns (a : A)
| Throws (e : Error).
Arguments Returns {A} a.
Arguments Throws {A} e.

(** What the program does to the outside: the calls into the git binding
    and the warnings printed. *)
Inductive logarg := LogString (s : str) | LogError (e : Error).

Inductive event :=
| Discover
| FindCommit (hash : str)
| ReadMessage
| Warn (args : list logarg).

(** A computation that appends to the trace and may throw. *)
Definition M (A : Type) : Type := list event -> outcome A * list event.

Definition ret {A} (a : A) : M A := fun tr => (Returns a, tr).
Definition throw {A} (e : Error) : M A := fun tr => (Throws e, tr).
Definition bind {A B} (m : M A) (f : A -> M B) : M B :=
  fun tr =>
    match m tr with
    | (Returns a, tr') => f a tr'
    | (Throws e, tr') => (Throws e, tr')
    end.
Definition try_catch {A} (m : M A) (h : Error -> M A) : M A :=
  fun tr =>
    match m tr with
    | (Returns a, tr') => (Returns a, tr')
    | (Throws e, tr') => h e tr'
    end.
Definition emit (e : event) : M unit := fun tr => (Returns tt, tr ++ [e]).
Definition lift {A} (o : outcome A) : M A := fun tr => (o, tr).
Definition console_warn (args : list logarg) : M unit := emit (Warn args).

Notation "'let*' x := m 'in' k" := (bind m (fun x => k))
  (at level 10, x name, m at level 100, k at level 200).

(** ** Data of the host ([@changesets/types]) *)

Inductive VersionType := major | minor | patch | none.

Record Release := { rel_name : str; rel_type : VersionType }.

Record NewChangesetWithCommit := {
  id : str;
  commit : option str;
  summary : str;
  releases : list Release
}.

(** [packageJson] is not read by this package and is left out. *)
Record ModCompWithPackage := {
  name : str;
  type : VersionType;
  oldVersion : str;
  newVersion : str;
  changesets : list str;
  dir : str
}.

Record ValidOptions := { repo : str }.

(** ** The git binding ([@napi-rs/simple-git]) *)

(** [findCommit] and [message] may throw or return [null]; [isShallow] is
    taken to return. *)
Record Commit := { message : outcome (option str) }.

Record Repository := {
  isShallow : bool;
  findCommit : str -> outcome (option Commit)
}.

(** What a call finds outside: the result of [Repository.discover(CWD)]
    and the environment variable [GITHUB_ACTION]. *)
Record World := {
  discover : outcome Repository;
  GITHUB_ACTION : option str
}.

(** ** src/_utils.ts *)

Definition chr (a : ascii) : N := N_of_ascii a.

Definition getRepoUrl (options : ValidOptions) : str :=
  js "https://github.com/" ++ repo options.

Definition getCommitUrl (options : ValidOptions) (commitHash : str) : str :=
  getRepoUrl options ++ js "/commit/" ++ commitHash.

(** [Number::toString] on the numbers of the model. *)
Definition number_to_string (n : number) : str :=
  match n with
  | NaN => js "NaN"
  | Infinity false => js "Infinity"
  | Infinity true => js "-Infinity"
  | Int z => js (DecimalString.NilZero.string_of_int (Z.to_int z))
  end.

Definition getPrUrl (options : ValidOptions) (prNumber : number) : str :=
  getRepoUrl options ++ js "/pull/" ++ number_to_string prNumber.

Definition getShortSha (commitHash : str) : str := slice0 7 commitHash.

Definition noflags : flags := Flags false false false.

(** [/^[^/\s]+\/[^/\s]+$/] *)
Definition segment_unit (c : N) : bool := negb (c =? chr "/") && negb (is_space c).

Definition ORG_REPO_REGEX : regex :=
  rseq [RBol; RPlus segment_unit; RChar (chr "/"); RPlus segment_unit; REol].

Definition missing_repo_message : str :=
  js "Please provide a repo for this changelog generator." ++ [10; 34]
  ++ js "example" ++ [34] ++ js ": [" ++ [34]
  ++ js "changesets-changelog-github-local" ++ [34] ++ js ", { " ++ [34]
  ++ js "repo" ++ [34] ++ js ": " ++ [34] ++ js "org/repo" ++ [34] ++ js " }]".

Definition invalid_repo_message : str :=
  js "Invalid repo format. Please use the format " ++ [34] ++ js "org/repo" ++ [34].

(** The assertion function [validate]: it returns nothing, and after it
    the argument is used as a [ValidOptions]; here it returns that view. *)
Definition validate (options : jsval) : outcome ValidOptions :=
  if negb (truthy options) || negb (truthy (get options (js "repo"))) then
    Throws (MkError missing_repo_message)
  else
    match get options (js "repo") with
    | JString s =>
        if negb (test noflags ORG_REPO_REGEX s)
        then Throws (MkError invalid_repo_message)
        else Returns {| repo := s |}
    | _ => Throws (MkError invalid_repo_message)
    end.

Definition getRepository (w : World) : M Repository :=
  try_catch
    (let* _ := emit Discover in
     let* repository := lift (discover w) in
     let* _ :=
       (if isShallow repository then
        if truthy (of_string (GITHUB_ACTION w)) then
          console_warn [LogString (js "The repository is shallow cloned, so PR links may not work. See https://github.com/actions/checkout#fetch-all-history-for-all-tags-and-branches to fetch all the history.")]
        else
          console_warn [LogString (js "The repository is shallow cloned, so PR links may not work.")]
        else ret tt) in
     ret repository)
    (fun error =>
       throw (MkError (js "Repository.discover failed: " ++ err_message error))).

Definition im : flags := Flags true true false.
Definition gim : flags := Flags true true true.

(** [/^\s*(?:pr|pull|pull\s+request):\s*#?(\d+)/im] *)
Definition PR_LINE : regex :=
  rseq [RBol; RStar is_space;
        RAlt (lit "pr") (RAlt (lit "pull")
          (rseq [lit "pull"; RPlus is_space; lit "request"]));
        RChar (chr ":"); RStar is_space; ROpt (RChar (chr "#"));
        RGroup 1 (RPlus is_digit)].

(** [/^\s*commit:\s*(\S+)/im] *)
Definition COMMIT_LINE : regex :=
  rseq [RBol; RStar is_space; lit "commit"; RChar (chr ":"); RStar is_space;
        RGroup 1 (RPlus non_space)].

(** [/^\s*(?:author|user):\s*@?(\S+)/gim] *)
Definition AUTHOR_LINE : regex :=
  rseq [RBol; RStar is_space; RAlt (lit "author") (lit "user");
        RChar (chr ":"); RStar is_space; ROpt (RChar (chr "@"));
        RGroup 1 (RPlus non_space)].

Definition cleanSummary (summary : str) : str :=
  trim (replace gim AUTHOR_LINE []
         (replace im COMMIT_LINE []
           (replace im PR_LINE [] summary))).

(** The number value of an integer [v]: [v] itself below 2^53, where
    every integer is a double; beyond, the nearest double, which has 53
    significant bits, a tie going to the even significand; and an infinity
    when that rounding reaches 2^1024. *)
Definition double_of_Z (v : Z) : number :=
  let a := Z.abs v in
  if (a <? 2 ^ 53)%Z then Int v
  else
    let e := (Z.log2 a - 52)%Z in
    let q := Z.shiftr a e in
    let r := (a - Z.shiftl q e)%Z in
    let half := Z.shiftl 1 (e - 1) in
    let q' := if (half <? r)%Z || ((r =? half)%Z && Z.odd q) then (q + 1)%Z else q in
    let m := Z.shiftl q' e in
    if (2 ^ 1024 <=? m)%Z then Infinity (v <? 0)%Z else Int (Z.sgn v * m).

(** [Number.parseInt(s, 10)]: leading white space, a sign, then the
    longest run of decimal digits, whose value is rounded to a double;
    [NaN] when that run is empty. *)
Fixpoint take_while (p : N -> bool) (s : str) : str :=
  match s with
  | [] => []
  | c :: t => if p c then c :: take_while p t else []
  end.

Definition digits_value (ds : str) : Z :=
  fold_left (fun acc c => (10 * acc + Z.of_N (c - 48))%Z) ds 0%Z.

Definition parseInt (s : str) : number :=
  let s1 := trimStart s in
  let '(sign, s2) :=
    match s1 with
    | c :: t =>
        if c =? chr "-" then ((-1)%Z, t)
        else if c =? chr "+" then (1%Z, t)
        else (1%Z, s1)
    | [] => (1%Z, s1)
    end in
  match take_while is_digit s2 with
  | [] => NaN
  | ds => double_of_Z (sign * digits_value ds)
  end.

(** [/\(#(\d+)\)$|#(\d+)\s*$/] *)
Definition PR_REFERENCE : regex :=
  RAlt (rseq [RChar (chr "("); RChar (chr "#"); RGroup 1 (RPlus is_digit);
              RChar (chr ")"); REol])
       (rseq [RChar (chr "#"); RGroup 2 (RPlus is_digit); RStar is_space; REol]).

(** [a || b] on two capture groups, each a string or [undefined]. *)
Definition or_else (a b : option str) : option str :=
  if truthy (of_string a) then a else b.

Definition getPrNumber (commitMessage : option str) : option number :=
  if negb (truthy (of_string commitMessage)) then None
  else
    let firstLine := trim (fst (split 10 (default [] commitMessage))) in
    match exec noflags PR_REFERENCE firstLine with
    | None => None
    | Some (_, m) =>
        let prNumber := or_else (caps m !! 1%nat) (caps m !! 2%nat) in
        match prNumber with
        | Some ((_ :: _) as digits) => Some (parseInt digits)
        | _ => None
        end
    end.

Definition getSuffix (pr : option number) (commitSha : option str)
    (options : ValidOptions) : str :=
  let otherwise :=
    match commitSha with
    | Some sha =>
        if string_truthy sha then
          js " ([`" ++ getShortSha sha ++ js "`](" ++ getCommitUrl options sha ++ js "))"
        else []
    | None => []
    end in
  match pr with
  | Some n =>
      if number_truthy n then
        js " ([#" ++ number_to_string n ++ js "](" ++ getPrUrl options n ++ js "))"
      else otherwise
  | None => otherwise
  end.

(** ** src/index.ts *)

(** [Array.prototype.filter(Boolean)] on an array of strings and [null]s. *)
Definition filter_Boolean (l : list (option str)) : list str :=
  omap (fun x => if truthy (of_string x) then x else None) l.

Definition getDependencyReleaseLine (changesets : list NewChangesetWithCommit)
    (dependenciesUpdated : list ModCompWithPackage) (options : jsval)
    : outcome str :=
  match validate options with
  | Throws e => Throws e
  | Returns options =>
      if (length dependenciesUpdated =? 0)%nat then Returns []
      else
        let changesetLink :=
          js "- Updated dependencies ["
          ++ join (js ", ")
               (filter_Boolean
                  (map (fun c =>
                          match commit c with
                          | Some h =>
                              if string_truthy h then
                                Some (js "[`" ++ getShortSha h ++ js "`]("
                                      ++ getCommitUrl options h ++ js ")")
                              else None
                          | None => None
                          end) changesets))
          ++ js "]:" in
        let updatedDependenciesList :=
          map (fun d => js "  - " ++ name d ++ js "@" ++ newVersion d)
              dependenciesUpdated in
        Returns (join [10] (changesetLink :: updatedDependenciesList))
  end.

(** The [try] block of [getReleaseLine]: the first line of the commit
    message, or [undefined] when there is no commit or no message. *)
Definition readCommitMsg (repository : Repository) (hash : str) : M (option str) :=
  let* _ := emit (FindCommit hash) in
  let* commit := lift (findCommit repository hash) in
  match commit with
  | Some commit =>
      let* _ := emit ReadMessage in
      let* commitMessage := lift (message commit) in
      if truthy (of_string commitMessage)
      then ret (Some (trim (fst (split 10 (default [] commitMessage)))))
      else ret None
  | None => ret None
  end.

Definition getReleaseLine (w : World) (changeset : NewChangesetWithCommit)
    (type : VersionType) (options : jsval) : M str :=
  let* options := lift (validate options) in
  let* repository := getRepository w in
  let summary := cleanSummary (summary changeset) in
  let* commitMsg :=
    (if truthy (of_string (commit changeset)) then
       try_catch
         (readCommitMsg repository (default [] (commit changeset)))
         (fun error =>
            let* _ :=
              console_warn
                [LogString (js "Failed to get commit message for "
                            ++ default [] (commit changeset) ++ js ":");
                 LogError error] in
            ret None)
     else ret None) in
  let '(firstLine, restOfLines) := split 10 summary in
  let suffix := getSuffix (getPrNumber commitMsg) (commit changeset) options in
  ret ([10] ++ js "- " ++ firstLine ++ suffix ++ [10]
       ++ join [10] (map (fun l => js "  " ++ l) restOfLines)).

(** A call of an effectful function on an empty trace. *)
Definition run {A} (m : M A) : outcome A * list event := m [].

(** * Definitions used in the statements *)

Arguments chr : simpl never.
Arguments js : simpl never.

(** ** Data of the repository's tests *)

(** [{ repo: 'owner/repo' }] *)
Definition owner_repo : jsval := JObject {[ js "repo" := JString (js "owner/repo") ]}.

Definition pkg_1 : ModCompWithPackage :=
  {| name := js "pkg-1"; type := minor; oldVersion := js "0.9.0";
     newVersion := js "1.0.0"; changesets := [js "changeset-1"];
     dir := js "packages/pkg-1" |}.

Definition fix_a_bug (hash : option str) : NewChangesetWithCommit :=
  {| id := js "changeset-1"; commit := hash; summary := js "Fix a bug";
     releases := [{| rel_name := js "pkg"; rel_type := patch |}] |}.

(** A repository in which every commit has the message [msg]. *)
Definition plain_repository (msg : str) : Repository :=
  {| isShallow := false;
     findCommit := fun _ => Returns (Some {| message := Returns (Some msg) |}) |}.

(** A repository in which [findCommit] throws. *)
Definition failing_repository : Repository :=
  {| isShallow := false;
     findCommit := fun _ => Throws (MkError (js "Git error")) |}.

Definition world_with (r : Repository) : World :=
  {| discover := Returns r; GITHUB_ACTION := None |}.

Definition world_without_repository : World :=
  {| discover := Throws (MkError (js "could not find repository"));
     GITHUB_ACTION := None |}.

(** ** Matches of a pattern *)

(** [sem fl r s s']: pattern [r] can take the matcher from position [s] to
    position [s']. This is the set of all matches, with no order among
    them; [rmatch] returns the one the backtracking order reaches first. *)
Fixpoint sem (fl : flags) (r : regex) (s s' : mstate) : Prop :=
  match r with
  | REmpty => s' = s
  | RChar c =>
      exists d t, rest s = d :: t /\ canonicalize fl d = canonicalize fl c
                  /\ s' = MState (d :: before s) t (caps s)
  | RSet p =>
      exists d t, rest s = d :: t /\ p d = true
                  /\ s' = MState (d :: before s) t (caps s)
  | RSeq a b => exists m, sem fl a s m /\ sem fl b m s'
  | RAlt a b => sem fl a s s' \/ sem fl b s s'
  | RStar p =>
      exists w t, rest s = w ++ t /\ forallb p w = true
                  /\ s' = MState (rev w ++ before s) t (caps s)
  | RGroup i a =>
      exists m, sem fl a s m
                /\ s' = MState (before m) (rest m) (<[i := consumed s m]> (caps m))
  | RBol => at_bol fl (before s) = true /\ s' = s
  | REol => at_eol fl (rest s) = true /\ s' = s
  end.

(** Sets of strings, built like the patterns: concatenation, choice, the
    empty string, an optional part, one given unit, a run of [p]-units
    (possibly empty, or not), a word in any mix of upper and lower case. *)
Definition cat (A B : str -> Prop) : str -> Prop :=
  fun x => exists u v, x = u ++ v /\ A u /\ B v.
Definition alt (A B : str -> Prop) : str -> Prop := fun x => A x \/ B x.
Definition nothing : str -> Prop := fun x => x = [].
Definition opt (A : str -> Prop) : str -> Prop := alt A nothing.
Definition unit (c : ascii) : str -> Prop := fun x => x = [chr c].
Definition all (p : N -> bool) : str -> Prop := fun x => forallb p x = true.
Definition some (p : N -> bool) : str -> Prop :=
  fun x => x <> [] /\ forallb p x = true.
Definition word (w : string) : str -> Prop :=
  fun x => map (canonicalize im) x = map (canonicalize im) (js w).

(** [r] takes the matcher over exactly the strings of [L], wherever it
    stands. *)
Definition recognizes (fl : flags) (r : regex) (L : str -> Prop) : Prop :=
  (forall s s', sem fl r s s' ->
     exists x, L x /\ rest s = x ++ rest s' /\ before s' = rev x ++ before s)
  /\ (forall s x t, L x -> rest s = x ++ t ->
        exists s', sem fl r s s' /\ rest s' = t /\ before s' = rev x ++ before s).

(** ** [validate] and [getPrNumber] *)

(** The shape [ORG_REPO_REGEX] accepts: two non-empty segments free of
    slashes and white space, with one slash between them. *)
Definition org_repo_form (s : str) : Prop :=
  exists a b, s = a ++ [chr "/"] ++ b /\ a <> [] /\ b <> []
              /\ forallb segment_unit a = true /\ forallb segment_unit b = true.

(** The trailing reference of a line: a non-empty run of digits [ds] that
    stands at the end of the line either as [(#ds)] or as [#ds] followed by
    white space only. *)
Definition pr_reference_form (line ds : str) : Prop :=
  ds <> [] /\ forallb is_digit ds = true
  /\ ((exists pre, line = pre ++ chr "(" :: chr "#" :: ds ++ [chr ")"])
      \/ (exists pre ws, line = pre ++ chr "#" :: ds ++ ws
                         /\ forallb is_space ws = true)).

(** ** [getSuffix] and the changelog functions *)

(** The two links of [getSuffix]. *)
Definition pr_link (options : ValidOptions) (n : number) : str :=
  js " ([#" ++ number_to_string n ++ js "](" ++ getPrUrl options n ++ js "))".

Definition commit_link (options : ValidOptions) (sha : str) : str :=
  js " ([`" ++ getShortSha sha ++ js "`](" ++ getCommitUrl options sha ++ js "))".

(** The link [getDependencyReleaseLine] makes of one change record. *)
Definition commit_link_plain (options : ValidOptions) (c : NewChangesetWithCommit)
    : option str :=
  match commit c with
  | Some h =>
      if string_truthy h then
        Some (js "[`" ++ getShortSha h ++ js "`](" ++ getCommitUrl options h ++ js ")")
      else None
  | None => None
  end.

(** The warning [getRepository] prints for a shallow clone. *)
Definition shallow_warning (w : World) (r : Repository) : list event :=
  if isShallow r then
    if truthy (of_string (GITHUB_ACTION w)) then
      [Warn [LogString (js "The repository is shallow cloned, so PR links may not work. See https://github.com/actions/checkout#fetch-all-history-for-all-tags-and-branches to fetch all the history.")]]
    else [Warn [LogString (js "The repository is shallow cloned, so PR links may not work.")]]
  else [].

(** The line [getReleaseLine] returns, from the two parts of the split
    summary and the suffix. *)
Definition release_line (firstLine : str) (restOfLines : list str) (suffix : str) : str :=
  [10] ++ js "- " ++ firstLine ++ suffix ++ [10]
  ++ join [10] (map (fun l => js "  " ++ l) restOfLines).

(** The commit-message step of [getReleaseLine], with the warning of its
    [catch], as [getReleaseLine] has it inline. *)
Definition resolve (repository : Repository) (changeset : NewChangesetWithCommit)
    : M (option str) :=
  if truthy (of_string (commit changeset)) then
    try_catch
      (readCommitMsg repository (default [] (commit changeset)))
      (fun error =>
         let* _ :=
           console_warn
             [LogString (js "Failed to get commit message for "
                         ++ default [] (commit changeset) ++ js ":");
              LogError error] in
         ret None)
  else ret None.

(** The commit lookup throws: in [findCommit] or in reading the message. *)
Definition lookup_throws (r : Repository) (h : str) (e : Error) : Prop :=
  findCommit r h = Throws e
  \/ exists c, findCommit r h = Returns (Some c) /\ message c = Throws e.

(** ** [cleanSummary] *)

(** The position behind [bef] (nearest unit first) is where [^] matches
    under the [m] flag: the start of the string or just after a line
    terminator. *)
Definition line_start (bef : str) : Prop := at_bol im bef = true.

(** The run of [p]-units stops at [b]. *)
Definition ends_run (p : N -> bool) (b : str) : Prop :=
  match b with [] => True | c :: _ => p c = false end.

(** [removed text p every bef s out]: [out] is [s] read from left to right
    where, at the first position (at every position, when [every]) at
    which a [text] starts at a line start, that text, taken up to the end
    of its final run of [p]-units, is left out, and every other unit is
    kept. [bef] holds the units before [s], nearest first. *)
Inductive removed (text : str -> Prop) (p : N -> bool) (every : bool)
    : str -> str -> str -> Prop :=
| removed_end bef : removed text p every bef [] []
| removed_keep bef c t out :
    (forall m b, c :: t = m ++ b -> line_start bef -> ~ text m) ->
    removed text p every (c :: bef) t out ->
    removed text p every bef (c :: t) (c :: out)
| removed_once bef m b :
    every = false -> line_start bef -> text m -> ends_run p b ->
    removed text p every bef (m ++ b) b
| removed_every bef m b out :
    every = true -> line_start bef -> text m -> ends_run p b ->
    removed text p every (rev m ++ bef) b out ->
    removed text p every bef (m ++ b) out.

(** The string left by the replacement of the first match, computed
    along the search. *)
Fixpoint cut_first (fl : flags) (r : regex) (bef rst : str) : str :=
  match rmatch fl r (MState bef rst ∅) Some with
  | Some e => rest e
  | None =>
      match rst with
      | [] => []
      | c :: t => c :: cut_first fl r (c :: bef) t
      end
  end.

(** The patterns of [cleanSummary] share one build: [^], a prefix, and a
    final captured run [(p+)] at which the pattern ends. *)
Definition line_pattern (PRE : regex) (i : nat) (p : N -> bool) : regex :=
  RSeq RBol (RSeq PRE (RSeq (RGroup i (RPlus p)) REmpty)).

(** The prefixes of the three patterns. *)
Definition PR_PREFIX : regex :=
  RSeq (RStar is_space)
    (RSeq (RAlt (lit "pr") (RAlt (lit "pull")
             (rseq [lit "pull"; RPlus is_space; lit "request"])))
       (RSeq (RChar (chr ":")) (RSeq (RStar is_space) (ROpt (RChar (chr "#")))))).

Definition COMMIT_PREFIX : regex :=
  RSeq (RStar is_space) (RSeq (lit "commit") (RSeq (RChar (chr ":")) (RStar is_space))).

Definition AUTHOR_PREFIX : regex :=
  RSeq (RStar is_space)
    (RSeq (RAlt (lit "author") (lit "user"))
       (RSeq (RChar (chr ":")) (RSeq (RStar is_space) (ROpt (RChar (chr "@")))))).

(** The strings the prefixes take: white space, the keyword, a colon,
    white space, and for two of them an optional [#] or [@]. *)
Definition pr_keyword : str -> Prop :=
  alt (word "pr")
    (alt (word "pull") (cat (word "pull") (cat (some is_space) (word "request")))).

Definition pr_prefix : str -> Prop :=
  cat (all is_space)
    (cat pr_keyword (cat (unit ":") (cat (all is_space) (opt (unit "#"))))).

Definition commit_prefix : str -> Prop :=
  cat (all is_space) (cat (word "commit") (cat (unit ":") (all is_space))).

Definition author_prefix : str -> Prop :=
  cat (all is_space)
    (cat (alt (word "author") (word "user"))
       (cat (unit ":") (cat (all is_space) (opt (unit "@"))))).

(** What each pattern matches: its prefix and then digits, or units that
    are not white space. *)
Definition pr_text : str -> Prop := cat pr_prefix (some is_digit).
Definition commit_text : str -> Prop := cat commit_prefix (some non_space).
Definition author_text : str -> Prop := cat author_prefix (some non_space).

(** ** The calls and warnings of [getReleaseLine] *)

Definition is_lookup (e : event) : bool :=
  match e with FindCommit _ => true | _ => false end.

(** The warning of the [catch] in [getReleaseLine]. *)
Definition lookup_warning (h : str) (e : Error) : event :=
  Warn [LogString (js "Failed to get commit message for " ++ h ++ js ":"); LogError e].

(** The events of the commit-message step, for a change record and a
    repository. *)
Definition lookup_events (r : Repository) (changeset : NewChangesetWithCommit)
    : list event :=
  match commit changeset with
  | Some h =>
      if string_truthy h then
        FindCommit h ::
        match findCommit r h with
        | Throws e => [lookup_warning h e]
        | Returns None => []
        | Returns (Some c) =>
            ReadMessage ::
            match message c with
            | Throws e => [lookup_warning h e]
            | Returns _ => []
            end
        end
      else []
  | None => []
  end.

(** The first line of the commit message that [getReleaseLine] hands to
    [getPrNumber]: [undefined] when the change record has no hash, the
    lookup throws or finds no commit, or the message is empty. *)
Definition resolved_message (r : Repository) (changeset : NewChangesetWithCommit)
    : option str :=
  match commit changeset with
  | Some h =>
      if string_truthy h then
        match findCommit r h with
        | Returns (Some c) =>
            match message c with
            | Returns (Some m) =>
                if string_truthy m then Some (trim (fst (split 10 m))) else None
            | _ => None
            end
        | _ => None
        end
      else None
  | None => None
  end.

(** * Properties *)

(** ** Strings *)

Lemma drop_while_idem p s : drop_while p (drop_while p s) = drop_while p s.
Proof.
  induction s as [|c t IH]; simpl; [reflexivity|].
  destruct (p c) eqn:E; [exact IH|]. simpl. now rewrite E.
Qed.

Lemma drop_while_head p s c t : drop_while p s = c :: t -> p c = false.
Proof.
  induction s as [|d u IH]; simpl; [discriminate|].
  destruct (p d) eqn:E; [exact IH|]. intros [= <- <-]. exact E.
Qed.

Lemma drop_while_suffix p s : exists w, s = w ++ drop_while p s /\ forallb p w = true.
Proof.
  induction s as [|c t [w [IH1 IH2]]]; simpl.
  - now exists [].
  - destruct (p c) eqn:E.
    + exists (c :: w). simpl. rewrite E. split; [now f_equal|exact IH2].
    + now exists [].
Qed.

Lemma drop_while_id p s :
  match s with [] => True | c :: _ => p c = false end -> drop_while p s = s.
Proof. destruct s as [|c t]; simpl; [reflexivity|]. now intros ->. Qed.

Lemma trimEnd_prefix s : exists w, s = trimEnd s ++ w /\ forallb is_space w = true.
Proof.
  unfold trimEnd. destruct (drop_while_suffix is_space (rev s)) as [w [H1 H2]].
  exists (rev w). split.
  - rewrite <- (rev_involutive s) at 1. rewrite H1 at 1. now rewrite rev_app_distr.
  - rewrite forallb_forall in *. intros x Hx. apply H2. now apply in_rev.
Qed.

Lemma trimEnd_idem s : trimEnd (trimEnd s) = trimEnd s.
Proof. unfold trimEnd. now rewrite rev_involutive, drop_while_idem. Qed.

Lemma trimStart_trimEnd s :
  match s with [] => True | c :: _ => is_space c = false end ->
  trimStart (trimEnd s) = trimEnd s.
Proof.
  intros H. apply drop_while_id.
  destruct (trimEnd_prefix s) as [w [Hs _]].
  destruct (trimEnd s) as [|c u]; [exact I|].
  rewrite Hs in H. exact H.
Qed.

Lemma trim_idem s : trim (trim s) = trim s.
Proof.
  unfold trim. rewrite trimStart_trimEnd, trimEnd_idem; [reflexivity|].
  unfold trimStart. destruct (drop_while is_space s) as [|c u] eqn:E; [exact I|].
  exact (drop_while_head _ _ _ _ E).
Qed.

(** [split] cuts at every separator and nowhere else. *)
Lemma split_join sep s :
  join [sep] (fst (split sep s) :: snd (split sep s)) = s.
Proof.
  induction s as [|c t IH]; [reflexivity|].
  simpl split. destruct (split sep t) as [h r].
  destruct (N.eqb_spec c sep) as [->|Hne].
  - simpl fst in *; simpl snd in *.
    change (join [sep] ([] :: h :: r)) with (sep :: join [sep] (h :: r)).
    now rewrite IH.
  - simpl fst in *; simpl snd in *.
    destruct r as [|x r']; simpl in *; now rewrite IH.
Qed.

Lemma split_no_sep sep s :
  Forall (fun l => ~ In sep l) (fst (split sep s) :: snd (split sep s)).
Proof.
  induction s as [|c t IH]; simpl split.
  - repeat constructor. intros [].
  - destruct (split sep t) as [h r]. simpl in IH.
    destruct (N.eqb_spec c sep) as [->|Hne]; simpl.
    + constructor; [intros []|exact IH].
    + inversion IH as [|? ? Hh Hr]; subst. constructor; [|exact Hr].
      intros [E|E]; [congruence|now apply Hh].
Qed.

Lemma split_fst_no_sep sep s : ~ In sep s -> split sep s = (s, []).
Proof.
  induction s as [|c t IH]; [reflexivity|]. intros H. simpl.
  rewrite IH by (intros E; apply H; now right).
  destruct (N.eqb_spec c sep) as [->|Hne]; [|reflexivity].
  exfalso. apply H. now left.
Qed.

(** ** The matcher against a declarative reading of the patterns *)

Section Matcher.
Variable fl : flags.

Lemma star_match_sound p k : forall rst bef cs res,
  star_match p k bef rst cs = Some res ->
  exists w t, rst = w ++ t /\ forallb p w = true
              /\ k (MState (rev w ++ bef) t cs) = Some res.
Proof.
  induction rst as [|c t IH]; intros bef cs res H; simpl in H.
  - now exists [], [].
  - destruct (p c) eqn:Hp; [|now exists [], (c :: t)].
    destruct (star_match p k (c :: bef) t cs) as [r|] eqn:Hs.
    + injection H as ->. destruct (IH _ _ _ Hs) as (w & t' & -> & Hw & Hk).
      exists (c :: w), t'. simpl. rewrite Hp, <- app_assoc. auto.
    + now exists [], (c :: t).
Qed.

Lemma star_match_complete p k : forall w t bef cs,
  forallb p w = true ->
  is_Some (k (MState (rev w ++ bef) t cs)) ->
  is_Some (star_match p k bef (w ++ t) cs).
Proof.
  induction w as [|c w IH]; intros t bef cs Hw Hk; simpl in *.
  - destruct t as [|c t]; simpl; [exact Hk|].
    destruct (p c); [|exact Hk].
    destruct (star_match p k (c :: bef) t cs); [eauto|exact Hk].
  - apply andb_prop in Hw as [Hc Hw]. rewrite Hc.
    rewrite <- app_assoc in Hk. simpl in Hk.
    destruct (IH t (c :: bef) cs Hw Hk) as [r ->]. eauto.
Qed.

(** Whatever the matcher returns is a match. *)
Lemma rmatch_sound r : forall s k res,
  rmatch fl r s k = Some res ->
  exists s', sem fl r s s' /\ k s' = Some res.
Proof.
  induction r as [|c|p|a IHa b IHb|a IHa b IHb|p|i a IHa| |];
    intros s k res H; simpl in H.
  - now exists s.
  - destruct (rest s) as [|d t] eqn:Hr; [discriminate|].
    destruct (N.eqb_spec (canonicalize fl d) (canonicalize fl c)) as [E|]; [|discriminate].
    eexists. split; [|exact H]. simpl. eauto.
  - destruct (rest s) as [|d t] eqn:Hr; [discriminate|].
    destruct (p d) eqn:Hp; [|discriminate].
    eexists. split; [|exact H]. simpl. eauto.
  - destruct (IHa _ _ _ H) as (m & Hm & H').
    destruct (IHb _ _ _ H') as (s' & Hs' & Hk).
    exists s'. split; [|exact Hk]. simpl. eauto.
  - destruct (rmatch fl a s k) as [r|] eqn:Ha.
    + injection H as ->. destruct (IHa _ _ _ Ha) as (s' & Hs' & Hk).
      exists s'. simpl. auto.
    + destruct (IHb _ _ _ H) as (s' & Hs' & Hk). exists s'. simpl. auto.
  - destruct (star_match_sound _ _ _ _ _ _ H) as (w & t & Hr & Hw & Hk).
    eexists. split; [|exact Hk]. simpl. eauto.
  - destruct (IHa _ _ _ H) as (m & Hm & Hk).
    eexists. split; [|exact Hk]. simpl. eauto.
  - destruct (at_bol fl (before s)) eqn:E; [|discriminate]. exists s. simpl. auto.
  - destruct (at_eol fl (rest s)) eqn:E; [|discriminate]. exists s. simpl. auto.
Qed.

(** Where there is a match whose continuation succeeds, the matcher
    does not fail. *)
Lemma rmatch_complete r : forall s s' k,
  sem fl r s s' -> is_Some (k s') -> is_Some (rmatch fl r s k).
Proof.
  induction r as [|c|p|a IHa b IHb|a IHa b IHb|p|i a IHa| |];
    intros s s' k Hs Hk; simpl in Hs; simpl.
  - now subst.
  - destruct Hs as (d & t & -> & E & ->). apply N.eqb_eq in E. now rewrite E.
  - destruct Hs as (d & t & -> & E & ->). now rewrite E.
  - destruct Hs as (m & Ha & Hb). eapply IHa; [exact Ha|]. eapply IHb; eassumption.
  - destruct Hs as [Ha|Hb].
    + destruct (IHa _ _ _ Ha Hk) as [r ->]. eauto.
    + destruct (rmatch fl a s k); [eauto|]. eapply IHb; eassumption.
  - destruct Hs as (w & t & -> & Hw & ->). now apply star_match_complete.
  - destruct Hs as (m & Ha & ->). eapply IHa; [exact Ha|]. exact Hk.
  - destruct Hs as [-> ->]. exact Hk.
  - destruct Hs as [-> ->]. exact Hk.
Qed.

Lemma consumed_app b w t c b' c' :
  consumed (MState b (w ++ t) c) (MState b' t c') = w.
Proof.
  unfold consumed. simpl. rewrite length_app.
  replace (length w + length t - length t)%nat with (length w) by lia.
  now rewrite take_app_length.
Qed.

(** [exec_from] returns a match, at a position with no match before it. *)
Lemma exec_from_sound r : forall rst bef b e,
  exec_from fl r bef rst = Some (b, e) ->
  exists pre,
    rst = pre ++ rest b /\ b = MState (rev pre ++ bef) (rest b) ∅
    /\ rmatch fl r b Some = Some e
    /\ forall p1 p2, pre = p1 ++ p2 -> p2 <> [] ->
         rmatch fl r (MState (rev p1 ++ bef) (p2 ++ rest b) ∅) Some = None.
Proof.
  induction rst as [|c t IH]; intros bef b e H; simpl in H.
  - destruct (rmatch fl r (MState bef [] ∅) Some) as [x|] eqn:Hm; [|discriminate].
    injection H as <- <-. exists []. simpl. repeat split; auto.
    intros p1 p2 Hp. now destruct p1, p2.
  - destruct (rmatch fl r (MState bef (c :: t) ∅) Some) as [x|] eqn:Hm.
    + injection H as <- <-. exists []. simpl. repeat split; auto.
      intros p1 p2 Hp. now destruct p1, p2.
    + destruct (IH _ _ _ H) as (pre & Ht & Hb & Hr & Hfirst).
      exists (c :: pre). simpl. rewrite <- app_assoc. simpl.
      repeat split; [now f_equal|exact Hb|exact Hr|].
      intros p1 p2 Hp Hne. destruct p1 as [|d p1]; simpl in Hp.
      * subst p2. simpl. rewrite <- Ht. exact Hm.
      * injection Hp as <- ->. simpl. rewrite <- app_assoc. simpl.
        now apply Hfirst.
Qed.

Lemma exec_from_complete r : forall pre t bef,
  is_Some (rmatch fl r (MState (rev pre ++ bef) t ∅) Some) ->
  is_Some (exec_from fl r bef (pre ++ t)).
Proof.
  induction pre as [|c pre IH]; intros t bef H; simpl in *.
  - destruct t; simpl; destruct H as [x ->]; eauto.
  - destruct (rmatch fl r (MState bef (c :: pre ++ t) ∅) Some); [eauto|].
    apply IH. now rewrite <- app_assoc in H.
Qed.

(** A scan over a string with no match gives the string back. *)
Lemma replace_scan_None r repl : forall rst bef,
  exec_from fl r bef rst = None -> replace_scan fl r repl bef rst O = rst.
Proof.
  induction rst as [|c t IH]; intros bef H; simpl in *.
  - now destruct (rmatch fl r (MState bef [] ∅) Some).
  - destruct (rmatch fl r (MState bef (c :: t) ∅) Some); [discriminate|].
    now rewrite IH.
Qed.
End Matcher.

Lemma replace_no_match fl r repl s : test fl r s = false -> replace fl r repl s = s.
Proof.
  unfold test, replace, exec. intros H.
  destruct (exec_from fl r [] s) eqn:E; [discriminate|].
  destruct (global fl); [now apply replace_scan_None|reflexivity].
Qed.

(** Unpacks the positions and stretches of a match. *)
Ltac sem_inv :=
  repeat match goal with
  | H : exists _, _ |- _ => destruct H
  | H : _ /\ _ |- _ => destruct H
  | H : ?x = _ |- _ => is_var x; subst x
  | H : _ = ?x |- _ => is_var x; subst x
  | H : context [rest (MState _ _ _)] |- _ => progress simpl rest in H
  | H : context [before (MState _ _ _)] |- _ => progress simpl before in H
  | H : context [caps (MState _ _ _)] |- _ => progress simpl caps in H
  end.

Lemma canonicalize_noflags c : canonicalize noflags c = c.
Proof. reflexivity. Qed.

Lemma at_bol_single fl b : multiline fl = false -> at_bol fl b = true -> b = [].
Proof. intros Hm. destruct b; simpl; [reflexivity|]. now rewrite Hm. Qed.

Lemma at_eol_single fl t : multiline fl = false -> at_eol fl t = true -> t = [].
Proof. intros Hm. destruct t; simpl; [reflexivity|]. now rewrite Hm. Qed.

Lemma exec_Some_sem fl r s b e :
  exec fl r s = Some (b, e) ->
  exists pre, s = pre ++ rest b /\ before b = rev pre /\ caps b = ∅ /\ sem fl r b e.
Proof.
  intros H. destruct (exec_from_sound _ _ _ _ _ _ H) as (pre & Hs & Hb & Hm & _).
  destruct (rmatch_sound _ _ _ _ _ Hm) as (s' & Hsem & [= <-]).
  exists pre. rewrite Hb at 2 3. simpl. rewrite app_nil_r. auto.
Qed.

Lemma sem_exec_Some fl r pre t :
  (exists e, sem fl r (MState (rev pre) t ∅) e) -> is_Some (exec fl r (pre ++ t)).
Proof.
  intros [e H]. apply exec_from_complete. rewrite app_nil_r.
  eapply rmatch_complete; eauto.
Qed.

(** Builds a match along a string written as the stretches the pattern
    takes one after the other. *)
Ltac sem_step :=
  match goal with
  | |- exists _, _ => eexists
  | |- _ /\ _ => split
  | |- sem _ _ _ _ => progress cbn [sem foldr]
  | |- _ => progress simpl rest
  | |- _ => progress simpl before
  | |- _ => reflexivity
  | |- _ => eassumption
  end.
Ltac sem_build := repeat sem_step.

(** ** [validate] *)

Lemma test_ORG_REPO_REGEX s :
  test noflags ORG_REPO_REGEX s = true <-> org_repo_form s.
Proof.
  unfold test. split.
  - destruct (exec noflags ORG_REPO_REGEX s) as [[b e]|] eqn:E; [intros _|discriminate].
    destruct (exec_Some_sem _ _ _ _ _ E) as (pre & Hs & Hb & _ & Hsem).
    unfold ORG_REPO_REGEX, rseq, RPlus in Hsem. cbn [foldr sem] in Hsem.
    destruct Hsem as (m & [Hbol ->] & Hsem).
    apply at_bol_single in Hbol; [|reflexivity]. rewrite Hbol in Hb.
    symmetry in Hb. apply (f_equal (@rev N)) in Hb. rewrite rev_involutive in Hb.
    simpl in Hb. subst pre. simpl in Hs. subst s. sem_inv.
    match goal with H : at_eol _ ?t = true |- _ =>
      apply at_eol_single in H; [|reflexivity]; rewrite H in * end.
    match goal with H : rest b = _ |- _ => rewrite H end.
    match goal with H : canonicalize _ ?c = _ |- _ =>
      rewrite !canonicalize_noflags in H; subst c end.
    match goal with |- org_repo_form (?a :: ?x ++ _ :: ?c :: ?y ++ []) =>
      exists (a :: x), (c :: y) end.
    rewrite app_nil_r. simpl. repeat split; try discriminate;
      apply andb_true_intro; auto.
  - intros (a & b & -> & Ha & Hb & Fa & Fb).
    destruct a as [|a0 a]; [congruence|]. destruct b as [|b0 b]; [congruence|].
    simpl in Fa, Fb. apply andb_prop in Fa as [Fa0 Fa], Fb as [Fb0 Fb].
    destruct (sem_exec_Some noflags ORG_REPO_REGEX []
                (a0 :: a ++ chr "/" :: b0 :: b ++ [])) as [x Hx].
    2:{ simpl app in *. rewrite app_nil_r in Hx. now rewrite Hx. }
    unfold ORG_REPO_REGEX, rseq, RPlus. sem_build.
Qed.

Lemma org_repo_form_nonempty s : org_repo_form s -> string_truthy s = true.
Proof.
  intros (a & b & -> & Ha & _). destruct a; [congruence|reflexivity].
Qed.

Lemma messages_differ : missing_repo_message <> invalid_repo_message.
Proof. discriminate. Qed.

(** C8, as amended. [validate] throws the missing-repo error exactly when
    the options value or its [repo] property is falsy ([undefined], [null],
    [false], [0], [NaN] or the empty string); it throws the invalid-format
    error exactly when [repo] is truthy and is either not a string or a
    string that is not two non-empty segments, free of slashes and white
    space, around one slash; it returns exactly when [repo] is a string of
    that form. *)
Theorem validate_outcomes (options : jsval) :
  (validate options = Throws (MkError missing_repo_message)
   <-> truthy options = false \/ truthy (get options (js "repo")) = false)
  /\ (validate options = Throws (MkError invalid_repo_message)
      <-> truthy options = true /\ truthy (get options (js "repo")) = true
          /\ ((forall s, get options (js "repo") <> JString s)
              \/ exists s, get options (js "repo") = JString s /\ ~ org_repo_form s))
  /\ (forall vo, validate options = Returns vo
      <-> get options (js "repo") = JString (repo vo) /\ org_repo_form (repo vo)).
Proof.
  assert (Hobj : forall s, get options (js "repo") = JString s ->
                           string_truthy s = true -> truthy options = true).
  { intros s Hs _. destruct options; simpl in *; congruence. }
  unfold validate.
  destruct (truthy options) eqn:To; cbn [negb orb].
  2:{ split; [split; auto|]. split.
      - split; [discriminate|]. intros (H & _); discriminate.
      - intros vo. split; [discriminate|].
        intros [Hg Hf]. specialize (Hobj _ Hg (org_repo_form_nonempty _ Hf)). discriminate. }
  destruct (truthy (get options (js "repo"))) eqn:Tr; cbn [negb orb].
  2:{ split; [split; auto|]. split.
      - split; [discriminate|]. intros (_ & H & _); discriminate.
      - intros vo. split; [discriminate|].
        intros [Hg Hf]. rewrite Hg in Tr. simpl in Tr.
        rewrite (org_repo_form_nonempty _ Hf) in Tr. discriminate. }
  assert (Hmi : @Throws ValidOptions (MkError invalid_repo_message)
                <> Throws (MkError missing_repo_message)).
  { intros H. apply messages_differ. congruence. }
  destruct (get options (js "repo")) as [| |b|n|s|props] eqn:G;
    try (split; [split; [intros H; now apply Hmi in H|intros [H|H]; discriminate]|];
         split; [split; [intros _; repeat split; left; intros s; discriminate|reflexivity]|];
         intros vo; split; [discriminate|intros [H _]; discriminate]).
  destruct (test noflags ORG_REPO_REGEX s) eqn:T; cbn [negb].
  - apply test_ORG_REPO_REGEX in T. split; [|split].
    + split; [discriminate|intros [H|H]; discriminate].
    + split; [discriminate|].
      intros (_ & _ & [H|(s' & [= <-] & H)]); [now specialize (H s)|tauto].
    + intros vo. split.
      * intros [= <-]. simpl. auto.
      * intros [[= ->] _]. now destruct vo.
  - assert (Hn : ~ org_repo_form s).
    { intros H. apply test_ORG_REPO_REGEX in H. congruence. }
    split; [|split].
    + split; [intros H; now apply Hmi in H|intros [H|H]; discriminate].
    + split; [|reflexivity]. intros _. repeat split. right. eauto.
    + intros vo. split; [discriminate|]. intros [[= ->] H]. tauto.
Qed.

Lemma validate_outcomes_witness :
  validate owner_repo = Returns {| repo := js "owner/repo" |}.
Proof.
  apply (proj2 (proj2 (proj2 (validate_outcomes owner_repo)) {| repo := js "owner/repo" |})).
  split; [reflexivity|].
  exists (js "owner"), (js "repo"). repeat split; discriminate.
Defined.

(** C8, the input that refutes the claim as stated: a [repo] property that
    is present, is not a string, and is falsy is reported as missing, not
    as badly formatted. *)
Lemma validate_repo_zero :
  get (JObject {[ js "repo" := JNumber (Int 0) ]}) (js "repo") = JNumber (Int 0)
  /\ validate (JObject {[ js "repo" := JNumber (Int 0) ]})
     = Throws (MkError missing_repo_message)
  /\ validate (JObject {[ js "repo" := JNumber (Int 0) ]})
     <> Throws (MkError invalid_repo_message).
Proof.
  split; [reflexivity|]. split; [reflexivity|].
  change (validate (JObject {[ js "repo" := JNumber (Int 0) ]}))
    with (@Throws ValidOptions (MkError missing_repo_message)).
  intros H. apply messages_differ. congruence.
Qed.

(** ** [getSuffix] *)

Lemma getSuffix_falsy_pr pr sha options :
  truthy (of_number pr) = false ->
  getSuffix pr sha options
  = match sha with
    | Some h => if string_truthy h then commit_link options h else []
    | None => []
    end.
Proof.
  unfold getSuffix. destruct pr as [n|]; simpl; [|reflexivity]. now intros ->.
Qed.

(** C7, as amended. [getSuffix] returns the pull-request link when [pr] is
    truthy (a number other than [0] and [NaN]), whatever [commitSha] is;
    the short-hash commit link when [pr] is falsy and [commitSha] is a
    non-empty string; and the empty string exactly when [pr] and
    [commitSha] are both falsy. *)
Theorem getSuffix_precedence (pr : option number) (commitSha : option str)
    (options : ValidOptions) :
  (forall n, pr = Some n -> number_truthy n = true ->
     getSuffix pr commitSha options = pr_link options n)
  /\ (forall h, truthy (of_number pr) = false -> commitSha = Some h -> h <> [] ->
        getSuffix pr commitSha options = commit_link options h)
  /\ (getSuffix pr commitSha options = []
      <-> truthy (of_number pr) = false /\ truthy (of_string commitSha) = false).
Proof.
  split; [|split].
  - intros n -> Hn. unfold getSuffix. now rewrite Hn.
  - intros h Hp -> Hh. rewrite getSuffix_falsy_pr by exact Hp.
    destruct h; [congruence|reflexivity].
  - destruct (truthy (of_number pr)) eqn:Hp.
    + destruct pr as [n|]; [|discriminate]. simpl in Hp.
      unfold getSuffix. rewrite Hp. split; [discriminate|intros [H _]; discriminate].
    + rewrite getSuffix_falsy_pr by exact Hp.
      destruct commitSha as [[|c h]|]; simpl; split; auto; try discriminate.
      intros [_ H]; discriminate.
Qed.

Lemma getSuffix_precedence_witness :
  getSuffix (Some (Int 123)) (Some (js "1234567890abcdef")) {| repo := js "owner/repo" |}
  = js " ([#123](https://github.com/owner/repo/pull/123))".
Proof.
  exact (proj1 (getSuffix_precedence (Some (Int 123)) (Some (js "1234567890abcdef"))
                  {| repo := js "owner/repo" |}) (Int 123) eq_refl eq_refl).
Defined.

(** C7, the input that refutes the claim as stated: with the defined
    pull-request number [0] and a commit hash, the commit link is returned,
    not the pull-request link; with [0] and no hash the result is empty
    although [pr] is not absent. *)
Lemma getSuffix_pr_zero :
  getSuffix (Some (Int 0)) (Some (js "abc1234567890")) {| repo := js "owner/repo" |}
  = js " ([`abc1234`](https://github.com/owner/repo/commit/abc1234567890))"
  /\ getSuffix (Some (Int 0)) (Some (js "abc1234567890")) {| repo := js "owner/repo" |}
     <> pr_link {| repo := js "owner/repo" |} (Int 0)
  /\ getSuffix (Some (Int 0)) None {| repo := js "owner/repo" |} = [].
Proof. split; [reflexivity|]. split; [discriminate|reflexivity]. Qed.

(** C10. Presence is tested by truthiness: the number [0] counts as no
    pull request and the empty string as no commit hash. *)
Theorem getSuffix_truthiness (pr : option number) (commitSha : option str)
    (options : ValidOptions) :
  getSuffix (Some (Int 0)) commitSha options = getSuffix None commitSha options
  /\ getSuffix pr (Some []) options = getSuffix pr None options
  /\ getSuffix (Some (Int 0)) None options = [].
Proof. repeat split. Qed.

(** ** [getDependencyReleaseLine] *)

Lemma filter_Boolean_links options cs :
  filter_Boolean (map (commit_link_plain options) cs) = omap (commit_link_plain options) cs.
Proof.
  induction cs as [|c cs IH]; [reflexivity|].
  unfold filter_Boolean in *. cbn [map omap list_omap]. rewrite IH.
  assert (H : forall x, commit_link_plain options c = Some x -> string_truthy x = true).
  { unfold commit_link_plain. destruct (commit c) as [h|]; [|discriminate].
    destruct (string_truthy h); [|discriminate]. now intros x [= <-]. }
  destruct (commit_link_plain options c) as [x|]; [|reflexivity].
  cbn [of_string truthy]. now rewrite (H x eq_refl).
Qed.

(** The header always carries the brackets, also around an empty list. *)
Lemma getDependencyReleaseLine_header changesets dependenciesUpdated options vo :
  validate options = Returns vo ->
  dependenciesUpdated <> [] ->
  getDependencyReleaseLine changesets dependenciesUpdated options
  = Returns (join [10]
      ((js "- Updated dependencies ["
        ++ join (js ", ") (omap (commit_link_plain vo) changesets) ++ js "]:")
       :: map (fun d => js "  - " ++ name d ++ js "@" ++ newVersion d)
            dependenciesUpdated)).
Proof.
  intros Hv Hd. unfold getDependencyReleaseLine. rewrite Hv.
  destruct dependenciesUpdated as [|d ds]; [congruence|].
  cbn [length Nat.eqb]. rewrite <- filter_Boolean_links. reflexivity.
Qed.

(** C1, on the input of the repository's test "handles updates without
    changesets": no change record, one dependency bump. The header comes
    out with an empty bracketed list, so the output does not contain the
    line ["- Updated dependencies:"] that the test expects. *)
Theorem getDependencyReleaseLine_no_changesets :
  getDependencyReleaseLine [] [pkg_1] owner_repo
  = Returns (js "- Updated dependencies []:" ++ [10] ++ js "  - pkg-1@1.0.0")
  /\ fst (split 10 (js "- Updated dependencies []:" ++ [10] ++ js "  - pkg-1@1.0.0"))
     = js "- Updated dependencies []:"
  /\ js "- Updated dependencies []:" <> js "- Updated dependencies:".
Proof. split; [reflexivity|]. split; [reflexivity|discriminate]. Qed.

(** ** [getReleaseLine] *)

Lemma getRepository_run w tr :
  getRepository w tr
  = match discover w with
    | Returns r => (Returns r, tr ++ [Discover] ++ shallow_warning w r)
    | Throws e =>
        (Throws (MkError (js "Repository.discover failed: " ++ err_message e)),
         tr ++ [Discover])
    end.
Proof.
  unfold getRepository, try_catch, bind, emit, lift, throw, ret, console_warn, emit,
    shallow_warning.
  destruct (discover w) as [r|e]; [|reflexivity].
  destruct (isShallow r); [|now rewrite app_nil_r].
  destruct (truthy (of_string (GITHUB_ACTION w))); now rewrite <- app_assoc.
Qed.

Lemma resolve_returns repository changeset tr :
  exists msg tr', resolve repository changeset tr = (Returns msg, tr').
Proof.
  unfold resolve, try_catch, readCommitMsg, bind, emit, lift, ret, console_warn, emit.
  destruct (truthy (of_string (commit changeset))); [|eauto].
  destruct (findCommit repository _) as [[c|]|e]; eauto.
  destruct (message c) as [m|e]; eauto.
  destruct (truthy (of_string m)); eauto.
Qed.

Lemma getReleaseLine_run w changeset type options vo :
  validate options = Returns vo ->
  run (getReleaseLine w changeset type options)
  = match discover w with
    | Throws e =>
        (Throws (MkError (js "Repository.discover failed: " ++ err_message e)),
         [Discover])
    | Returns r =>
        match resolve r changeset ([Discover] ++ shallow_warning w r) with
        | (Returns commitMsg, tr) =>
            (Returns (release_line
                        (fst (split 10 (cleanSummary (summary changeset))))
                        (snd (split 10 (cleanSummary (summary changeset))))
                        (getSuffix (getPrNumber commitMsg) (commit changeset) vo)), tr)
        | (Throws e, tr) => (Throws e, tr)
        end
    end.
Proof.
  intros Hv. unfold run, getReleaseLine. unfold bind at 1, lift at 1. rewrite Hv.
  unfold bind at 1. rewrite getRepository_run, !app_nil_l.
  destruct (discover w) as [r|e]; [|reflexivity].
  unfold bind at 1. fold (resolve r changeset).
  destruct (resolve r changeset _) as [[msg|e] tr]; [|reflexivity].
  destruct (split 10 (cleanSummary (summary changeset))) as [first rest].
  reflexivity.
Qed.

Lemma getReleaseLine_returns w r changeset type options vo :
  validate options = Returns vo -> discover w = Returns r ->
  exists commitMsg,
    fst (run (getReleaseLine w changeset type options))
    = Returns (release_line
                 (fst (split 10 (cleanSummary (summary changeset))))
                 (snd (split 10 (cleanSummary (summary changeset))))
                 (getSuffix (getPrNumber commitMsg) (commit changeset) vo)).
Proof.
  intros Hv Hd. rewrite (getReleaseLine_run _ _ _ _ _ Hv), Hd.
  destruct (resolve_returns r changeset ([Discover] ++ shallow_warning w r))
    as (msg & tr & ->).
  now exists msg.
Qed.

Lemma resolve_value r changeset tr :
  fst (resolve r changeset tr) = Returns (resolved_message r changeset).
Proof.
  unfold resolve, resolved_message, try_catch, readCommitMsg, bind, emit, lift, ret,
    console_warn, emit.
  destruct (commit changeset) as [h|]; cbn [of_string truthy]; [|reflexivity].
  destruct (string_truthy h); [|reflexivity]. cbn [from_option Datatypes.id].
  destruct (findCommit r h) as [[c|]|e]; try reflexivity.
  destruct (message c) as [[m|]|e]; try reflexivity.
  cbn [of_string truthy from_option Datatypes.id]. now destruct (string_truthy m).
Qed.

Lemma getReleaseLine_value w r changeset type options vo :
  validate options = Returns vo -> discover w = Returns r ->
  fst (run (getReleaseLine w changeset type options))
  = Returns (release_line (fst (split 10 (cleanSummary (summary changeset))))
               (snd (split 10 (cleanSummary (summary changeset))))
               (getSuffix (getPrNumber (resolved_message r changeset))
                  (commit changeset) vo)).
Proof.
  intros Hv Hd. rewrite (getReleaseLine_run _ _ _ _ _ Hv), Hd.
  pose proof (resolve_value r changeset ([Discover] ++ shallow_warning w r)) as H.
  destruct (resolve r changeset ([Discover] ++ shallow_warning w r)) as [[m|e] tr];
    cbn [fst] in *; [now injection H as ->|discriminate].
Qed.

(** C2. With valid options and the repository found, [getReleaseLine]
    returns a line feed, ["- "], the first line of the cleaned summary, the
    suffix, a line feed, and the remaining lines each behind two spaces and
    joined by line feeds; with no remaining line the string ends at the
    line feed after the opening line. The suffix is the one [getSuffix]
    makes of the number that [getPrNumber] reads in the first line of the
    commit message looked up, and of the commit hash of the change record.
    The lines are the pieces of the cleaned summary between its line
    feeds. Nothing is returned unless the repository is found. *)
Theorem getReleaseLine_format (w : World) (changeset : NewChangesetWithCommit)
    (type : VersionType) (options : jsval) (vo : ValidOptions) :
  validate options = Returns vo ->
  let firstLine := fst (split 10 (cleanSummary (summary changeset))) in
  let restOfLines := snd (split 10 (cleanSummary (summary changeset))) in
  (forall r, discover w = Returns r ->
     let suffix :=
       getSuffix (getPrNumber (resolved_message r changeset)) (commit changeset) vo in
     fst (run (getReleaseLine w changeset type options))
     = Returns ([10] ++ js "- " ++ firstLine ++ suffix ++ [10]
                ++ join [10] (map (fun l => js "  " ++ l) restOfLines))
     /\ (restOfLines = [] ->
         fst (run (getReleaseLine w changeset type options))
         = Returns ([10] ++ js "- " ++ firstLine ++ suffix ++ [10])))
  /\ (forall out, fst (run (getReleaseLine w changeset type options)) = Returns out ->
        exists r, discover w = Returns r)
  /\ join [10] (firstLine :: restOfLines) = cleanSummary (summary changeset)
  /\ Forall (fun l => ~ In 10 l) (firstLine :: restOfLines).
Proof.
  intros Hv firstLine restOfLines. split; [|split; [|split]].
  - intros r Hd suffix.
    rewrite (getReleaseLine_value _ _ _ _ _ _ Hv Hd). fold firstLine restOfLines suffix.
    unfold release_line. split; [reflexivity|].
    intros ->. cbn [map join]. now rewrite !app_nil_r.
  - intros out Hout. destruct (discover w) as [r|e] eqn:Hd; [now exists r|].
    rewrite (getReleaseLine_run _ _ _ _ _ Hv), Hd in Hout. discriminate.
  - apply split_join.
  - apply split_no_sep.
Qed.

Lemma getReleaseLine_format_witness :
  fst (run (getReleaseLine (world_with (plain_repository (js "Fix a bug (#123)")))
              (fix_a_bug (Some (js "abc1234567890"))) patch owner_repo))
  = Returns ([10] ++ js "- Fix a bug ([#123](https://github.com/owner/repo/pull/123))"
             ++ [10]).
Proof.
  exact (proj2 (proj1 (getReleaseLine_format
                         (world_with (plain_repository (js "Fix a bug (#123)")))
                         (fix_a_bug (Some (js "abc1234567890"))) patch owner_repo
                         {| repo := js "owner/repo" |} eq_refl)
                  (plain_repository (js "Fix a bug (#123)")) eq_refl) eq_refl).
Defined.

(** C3, as amended. For a change record without a commit hash and valid
    options, [getReleaseLine] makes no commit lookup, but it does discover
    the repository first: the call throws the discovery error when
    discovery fails, and otherwise returns the line without a suffix. *)
Theorem getReleaseLine_without_commit (w : World) (changeset : NewChangesetWithCommit)
    (type : VersionType) (options : jsval) (vo : ValidOptions) :
  validate options = Returns vo ->
  commit changeset = None ->
  (forall h, ~ In (FindCommit h) (snd (run (getReleaseLine w changeset type options))))
  /\ ~ In ReadMessage (snd (run (getReleaseLine w changeset type options)))
  /\ In Discover (snd (run (getReleaseLine w changeset type options)))
  /\ fst (run (getReleaseLine w changeset type options))
     = match discover w with
       | Throws e =>
           Throws (MkError (js "Repository.discover failed: " ++ err_message e))
       | Returns _ =>
           Returns (release_line (fst (split 10 (cleanSummary (summary changeset))))
                      (snd (split 10 (cleanSummary (summary changeset)))) [])
       end.
Proof.
  intros Hv Hc. rewrite (getReleaseLine_run _ _ _ _ _ Hv).
  unfold resolve. rewrite Hc. cbn [of_string truthy ret].
  destruct (discover w) as [r|e]; cbn [fst snd].
  - assert (Hw : forall ev, In ev ([Discover] ++ shallow_warning w r) ->
                            ev = Discover \/ exists a, ev = Warn a).
    { intros ev [<-|H]; [now left|]. right. unfold shallow_warning in H.
      destruct (isShallow r); [|destruct H].
      destruct (truthy (of_string (GITHUB_ACTION w)));
        destruct H as [<-|[]]; eauto. }
    repeat split.
    + intros h H. destruct (Hw _ H) as [E|[a E]]; discriminate.
    + intros H. destruct (Hw _ H) as [E|[a E]]; discriminate.
    + now left.
  - repeat split.
    + intros h [H|[]]; discriminate.
    + intros [H|[]]; discriminate.
    + now left.
Qed.

Lemma getReleaseLine_without_commit_witness :
  fst (run (getReleaseLine (world_with (plain_repository (js "Fix a bug (#123)")))
              (fix_a_bug None) patch owner_repo))
  = Returns ([10] ++ js "- Fix a bug" ++ [10]).
Proof.
  exact (proj2 (proj2 (proj2 (getReleaseLine_without_commit
                                (world_with (plain_repository (js "Fix a bug (#123)")))
                                (fix_a_bug None) patch owner_repo
                                {| repo := js "owner/repo" |} eq_refl eq_refl)))).
Defined.

(** C3, the input that refutes the claim as stated: a change record
    without a commit hash, valid options, and no repository to be found.
    Discovery is attempted and the call fails with the discovery error. *)
Lemma getReleaseLine_discovery_failure :
  commit (fix_a_bug None) = None
  /\ validate owner_repo = Returns {| repo := js "owner/repo" |}
  /\ run (getReleaseLine world_without_repository (fix_a_bug None) patch owner_repo)
     = (Throws (MkError (js "Repository.discover failed: could not find repository")),
        [Discover]).
Proof. repeat split. Qed.

Lemma drop_while_In p s c : In c (drop_while p s) -> In c s.
Proof.
  induction s as [|d t IH]; simpl; [auto|].
  destruct (p d); [|auto]. intros H. right. now apply IH.
Qed.

Lemma trim_In s c : In c (trim s) -> In c s.
Proof.
  unfold trim, trimEnd, trimStart. intros H.
  apply in_rev, drop_while_In, in_rev in H. now apply drop_while_In in H.
Qed.

(** [getReleaseLine] hands [getPrNumber] the trimmed first line of the
    message, and [getPrNumber] takes the trimmed first line again: the
    second time changes nothing. *)
Lemma getPrNumber_first_line m :
  getPrNumber (Some (trim (fst (split 10 m)))) = getPrNumber (Some m).
Proof.
  destruct m as [|c m]; [reflexivity|].
  unfold getPrNumber. cbn [of_string truthy from_option Datatypes.id].
  destruct (trim (fst (split 10 (c :: m)))) as [|d t] eqn:Ht; [reflexivity|].
  cbn [string_truthy negb].
  assert (Hn : ~ In 10 (d :: t)).
  { rewrite <- Ht. intros H. apply trim_In in H.
    pose proof (split_no_sep 10 (c :: m)) as F. inversion F; auto. }
  rewrite (split_fst_no_sep _ _ Hn). cbn [fst].
  now rewrite <- Ht, trim_idem.
Qed.

Lemma getPrNumber_resolved (commitMessage : option str) :
  getPrNumber (if truthy (of_string commitMessage)
               then Some (trim (fst (split 10 (default [] commitMessage))))
               else None)
  = getPrNumber commitMessage.
Proof.
  destruct commitMessage as [[|c m]|]; try reflexivity.
  cbn [of_string truthy string_truthy from_option Datatypes.id]. apply getPrNumber_first_line.
Qed.

(** C4. For a change record with a commit hash and valid options, in a
    discovered repository where the commit lookup throws, [getReleaseLine]
    returns; it warns with the hash and the error thrown; its output has
    the commit-hash suffix, and is the output of every call where the
    lookup returns a message in which [getPrNumber] finds no reference. *)
Theorem getReleaseLine_lookup_failure (w : World) (r : Repository)
    (changeset : NewChangesetWithCommit) (type : VersionType) (options : jsval)
    (vo : ValidOptions) (h : str) (e : Error) :
  validate options = Returns vo ->
  discover w = Returns r ->
  commit changeset = Some h -> h <> [] ->
  lookup_throws r h e ->
  let out :=
    release_line (fst (split 10 (cleanSummary (summary changeset))))
      (snd (split 10 (cleanSummary (summary changeset)))) (commit_link vo h) in
  fst (run (getReleaseLine w changeset type options)) = Returns out
  /\ In (Warn [LogString (js "Failed to get commit message for " ++ h ++ js ":");
              LogError e])
        (snd (run (getReleaseLine w changeset type options)))
  /\ forall w' r' c' m',
       discover w' = Returns r' ->
       findCommit r' h = Returns (Some c') ->
       message c' = Returns (Some m') ->
       getPrNumber (Some m') = None ->
       fst (run (getReleaseLine w' changeset type options)) = Returns out.
Proof.
  intros Hv Hd Hc Hh Ht out.
  assert (Hs : getSuffix None (commit changeset) vo = commit_link vo h).
  { rewrite Hc. unfold getSuffix, commit_link. destruct h; [congruence|reflexivity]. }
  assert (Htr : truthy (of_string (commit changeset)) = true).
  { rewrite Hc. destruct h; [congruence|reflexivity]. }
  split; [|split].
  - rewrite (getReleaseLine_run _ _ _ _ _ Hv), Hd.
    unfold resolve, try_catch, readCommitMsg, bind, emit, lift, ret, console_warn, emit.
    rewrite Htr, Hc. cbn [from_option Datatypes.id].
    destruct Ht as [Ht|(c & Hf & Hm)].
    + rewrite Ht. cbn [fst]. unfold out. now rewrite <- Hs, Hc.
    + rewrite Hf, Hm. cbn [fst]. unfold out. now rewrite <- Hs, Hc.
  - rewrite (getReleaseLine_run _ _ _ _ _ Hv), Hd.
    unfold resolve, try_catch, readCommitMsg, bind, emit, lift, ret, console_warn, emit.
    rewrite Htr, Hc. cbn [from_option Datatypes.id].
    destruct Ht as [Ht|(c & Hf & Hm)].
    + rewrite Ht. cbn [snd]. apply in_or_app. right. now left.
    + rewrite Hf, Hm. cbn [snd]. apply in_or_app. right. now left.
  - intros w' r' c' m' Hd' Hf' Hm' Hp.
    rewrite (getReleaseLine_run _ _ _ _ _ Hv), Hd'.
    unfold resolve, try_catch, readCommitMsg, bind, emit, lift, ret.
    rewrite Htr, Hc. cbn [from_option Datatypes.id]. rewrite Hf', Hm'.
    pose proof (getPrNumber_resolved (Some m')) as Hr. rewrite Hp in Hr.
    destruct (truthy (of_string (Some m'))); cbn [fst]; unfold out.
    + now rewrite Hr, <- Hs, Hc.
    + now rewrite <- Hs, Hc.
Qed.

Lemma getReleaseLine_lookup_failure_witness :
  fst (run (getReleaseLine (world_with failing_repository)
              (fix_a_bug (Some (js "abc1234567890"))) patch owner_repo))
  = Returns ([10] ++ js "- Fix a bug ([`abc1234`](https://github.com/owner/repo/commit/abc1234567890))"
             ++ [10]).
Proof.
  refine (proj1 (getReleaseLine_lookup_failure (world_with failing_repository)
                   failing_repository (fix_a_bug (Some (js "abc1234567890"))) patch
                   owner_repo {| repo := js "owner/repo" |} (js "abc1234567890")
                   (MkError (js "Git error")) eq_refl eq_refl eq_refl _ _)).
  - discriminate.
  - left. reflexivity.
Defined.

(** ** [getPrNumber] *)

Lemma forallb_not_In (p : N -> bool) l c :
  forallb p l = true -> p c = false -> ~ In c l.
Proof.
  intros H Hc Hin. rewrite forallb_forall in H. rewrite (H _ Hin) in Hc. discriminate.
Qed.

(** A string is cut in one way only at the last occurrence of a unit. *)
Lemma cut_at_last (c : N) : forall x x' y y',
  ~ In c y -> ~ In c y' -> x ++ c :: y = x' ++ c :: y' -> y = y'.
Proof.
  induction x as [|d x IH]; intros [|d' x'] y y' Hy Hy' H; simpl in H.
  - now injection H.
  - injection H as _ ->. exfalso. apply Hy, in_or_app. right. now left.
  - injection H as _ <-. exfalso. apply Hy', in_or_app. right. now left.
  - injection H as _ H. eapply IH; eassumption.
Qed.

Lemma take_while_app p ds y :
  forallb p ds = true ->
  match y with [] => True | c :: _ => p c = false end ->
  take_while p (ds ++ y) = ds.
Proof.
  induction ds as [|d ds IH]; simpl; intros Hd Hy.
  - destruct y; [reflexivity|]. simpl. now rewrite Hy.
  - apply andb_prop in Hd as [-> Hd]. now rewrite IH.
Qed.

Lemma is_digit_range c : is_digit c = true <-> 48 <= c <= 57.
Proof. unfold is_digit. rewrite andb_true_iff, !N.leb_le. tauto. Qed.

Lemma digit_not_space c : is_digit c = true -> is_space c = false.
Proof.
  intros H. apply is_digit_range in H. unfold is_space, is_line_terminator.
  repeat (apply orb_false_intro); try (apply N.eqb_neq; lia).
  apply andb_false_intro1, N.leb_gt. lia.
Qed.

Lemma space_not_digit c : is_space c = true -> is_digit c = false.
Proof.
  intros H. destruct (is_digit c) eqn:E; [|reflexivity].
  apply digit_not_space in E. congruence.
Qed.

Lemma digits_value_nonneg ds : (0 <= digits_value ds)%Z.
Proof.
  unfold digits_value.
  assert (H : forall acc, (0 <= acc)%Z ->
            (0 <= fold_left (fun acc c => 10 * acc + Z.of_N (c - 48)) ds acc)%Z).
  { induction ds as [|c ds IH]; intros acc Ha; [exact Ha|]. apply IH. lia. }
  apply H. lia.
Qed.

(** Below 2^53 every integer is a double. *)
Lemma double_of_Z_exact v : (Z.abs v < 2 ^ 53)%Z -> double_of_Z v = Int v.
Proof.
  intros H. unfold double_of_Z. apply Z.ltb_lt in H. now rewrite H.
Qed.

(** Rounding keeps the sign: of an integer that is not negative, the
    double is such an integer too, or the positive infinity. *)
Lemma double_of_Z_nonneg v :
  (0 <= v)%Z ->
  (exists z, double_of_Z v = Int z /\ (0 <= z)%Z) \/ double_of_Z v = Infinity false.
Proof.
  intros Hv. unfold double_of_Z.
  destruct (Z.abs v <? 2 ^ 53)%Z eqn:Hs; [left; eauto|].
  apply Z.ltb_ge in Hs.
  set (e := (Z.log2 (Z.abs v) - 52)%Z).
  set (q := Z.shiftr (Z.abs v) e).
  set (q' := if (_ || _) then (q + 1)%Z else q).
  destruct (2 ^ 1024 <=? Z.shiftl q' e)%Z.
  - right. f_equal. now apply Z.ltb_ge.
  - left. eexists. split; [reflexivity|].
    assert (0 <= q)%Z by (apply Z.shiftr_nonneg; lia).
    assert (0 <= q')%Z by (unfold q'; destruct (_ || _); lia).
    assert (0 <= Z.shiftl q' e)%Z by now apply Z.shiftl_nonneg.
    assert (0 <= Z.sgn v)%Z by now apply Z.sgn_nonneg.
    nia.
Qed.

(** On a run of digits [parseInt] is the decimal value of the run, as a
    double. *)
Lemma parseInt_digits ds :
  ds <> [] -> forallb is_digit ds = true -> parseInt ds = double_of_Z (digits_value ds).
Proof.
  intros Hne Hd. destruct ds as [|d ds]; [congruence|].
  pose proof Hd as Hd'. simpl in Hd'. apply andb_prop in Hd' as [H0 _].
  unfold parseInt, trimStart. cbn [drop_while]. rewrite (digit_not_space _ H0).
  apply is_digit_range in H0.
  destruct (N.eqb_spec d (chr "-")) as [E|_]; [unfold chr in E; simpl in E; lia|].
  destruct (N.eqb_spec d (chr "+")) as [E|_]; [unfold chr in E; simpl in E; lia|].
  rewrite <- (app_nil_r (d :: ds)), take_while_app, app_nil_r by auto.
  now rewrite Z.mul_1_l.
Qed.

(** A line has at most one trailing reference: were there several [#ds],
    the form holds of the last one only. *)
Lemma pr_reference_form_unique line ds ds' :
  pr_reference_form line ds -> pr_reference_form line ds' -> ds = ds'.
Proof.
  assert (Hash : forall l, forallb is_digit l = true -> ~ In (chr "#") l).
  { intros l Hl. eapply forallb_not_In; [exact Hl|reflexivity]. }
  assert (Tail : forall l, pr_reference_form line l ->
            exists x y, line = x ++ chr "#" :: l ++ y /\ ~ In (chr "#") (l ++ y)
                        /\ forallb is_digit l = true
                        /\ match y with [] => True | c :: _ => is_digit c = false end).
  { intros l (Hne & Hd & [[pre ->]|(pre & ws & -> & Hws)]).
    - exists (pre ++ [chr "("]), [chr ")"]. rewrite <- app_assoc. repeat split; auto.
      intros H. apply in_app_or in H as [H|[H|[]]]; [now apply (Hash l)|discriminate].
    - exists pre, ws. repeat split; auto.
      + intros H. apply in_app_or in H as [H|H]; [now apply (Hash l)|].
        revert H. eapply forallb_not_In; [exact Hws|reflexivity].
      + destruct ws as [|c ws]; [exact I|]. simpl in Hws.
        apply andb_prop in Hws as [Hc _]. now apply space_not_digit. }
  intros H H'.
  destruct (Tail _ H) as (x & y & E & Hn & Hd & Hy).
  destruct (Tail _ H') as (x' & y' & E' & Hn' & Hd' & Hy').
  rewrite E in E'. apply cut_at_last in E'; [|assumption..].
  rewrite <- (take_while_app is_digit ds y Hd Hy), E'.
  now apply take_while_app.
Qed.

Lemma consumed_cons b d w t c b' c' :
  consumed (MState b (d :: w ++ t) c) (MState b' t c') = d :: w.
Proof. exact (consumed_app b (d :: w) t c b' c'). Qed.

(** What [PR_REFERENCE] finds is a trailing reference, and its digits are
    in the capture group of the alternative that matched. *)
Lemma exec_PR_REFERENCE_sound line b e :
  exec noflags PR_REFERENCE line = Some (b, e) ->
  exists ds, pr_reference_form line ds
             /\ or_else (caps e !! 1%nat) (caps e !! 2%nat) = Some ds.
Proof.
  intros H. destruct (exec_Some_sem _ _ _ _ _ H) as (pre & -> & _ & Hc & Hsem).
  unfold PR_REFERENCE, rseq, RPlus in Hsem. cbn [foldr sem] in Hsem.
  destruct b as [bb br bc]. simpl in Hc. subst bc.
  destruct Hsem as [Hsem|Hsem]; sem_inv;
    repeat match goal with H : canonicalize noflags _ = _ |- _ =>
      rewrite !canonicalize_noflags in H; subst end;
    match goal with H : at_eol _ ?t = true |- _ =>
      apply at_eol_single in H; [|reflexivity]; subst t end.
  - match goal with |- context [consumed (MState _ (?d :: ?w ++ ?t) _) _] =>
      rewrite (consumed_cons _ d w t); exists (d :: w) end.
    split.
    + split; [discriminate|]. split; [simpl; apply andb_true_intro; auto|].
      left. exists pre. reflexivity.
    + cbn [caps]. now rewrite lookup_insert_eq.
  - rewrite app_nil_r in *.
    match goal with |- context [consumed (MState _ (?d :: ?w ++ ?t) _) _] =>
      rewrite (consumed_cons _ d w t); exists (d :: w) end.
    split.
    + split; [discriminate|]. split; [simpl; apply andb_true_intro; auto|].
      right. exists pre. eexists. split; [reflexivity|assumption].
    + cbn [caps]. rewrite lookup_insert_ne, lookup_empty by discriminate.
      now rewrite lookup_insert_eq.
Qed.

(** On a line with a trailing reference [PR_REFERENCE] finds a match. *)
Lemma exec_PR_REFERENCE_complete line ds :
  pr_reference_form line ds -> is_Some (exec noflags PR_REFERENCE line).
Proof.
  intros (Hne & Hd & Hform). destruct ds as [|d ds]; [congruence|].
  simpl in Hd. apply andb_prop in Hd as [Hd0 Hd].
  destruct Hform as [[pre ->]|(pre & ws & -> & Hws)].
  - apply sem_exec_Some. unfold PR_REFERENCE, rseq, RPlus. cbn [foldr sem].
    eexists. left. sem_build.
  - rewrite <- (app_nil_r ws). apply sem_exec_Some.
    unfold PR_REFERENCE, rseq, RPlus. cbn [foldr sem].
    eexists. right. sem_build.
Qed.

(** C6. [getPrNumber] of an absent message is absent. Of a message, it
    looks at the trimmed first line only: it returns [n] exactly when that
    line ends in a reference [(#ds)], or [#ds] with nothing but white space
    behind it, and [n] is the number that the digits [ds] are parsed to:
    their decimal value when that is below 2^53, as of every pull-request
    number, and the double nearest to it otherwise; a line ends in at most
    one such reference, so references before it are passed over; and it
    returns nothing exactly when the line ends in no reference. *)
Theorem getPrNumber_spec :
  getPrNumber None = None
  /\ forall m : str,
       let line := trim (fst (split 10 m)) in
       (forall n, getPrNumber (Some m) = Some n
                  <-> exists ds, pr_reference_form line ds
                                 /\ n = double_of_Z (digits_value ds))
       /\ (forall ds, pr_reference_form line ds -> (digits_value ds < 2 ^ 53)%Z ->
                      getPrNumber (Some m) = Some (Int (digits_value ds)))
       /\ (getPrNumber (Some m) = None <-> ~ exists ds, pr_reference_form line ds)
       /\ (forall ds ds', pr_reference_form line ds -> pr_reference_form line ds' ->
                          ds = ds').
Proof.
  split; [reflexivity|]. intros m line.
  assert (Hcases :
    (exists ds, pr_reference_form line ds
                /\ getPrNumber (Some m) = Some (double_of_Z (digits_value ds)))
    \/ ((~ exists ds, pr_reference_form line ds) /\ getPrNumber (Some m) = None)).
  { destruct m as [|c m].
    - right. split; [|reflexivity].
      intros (ds & _ & _ & [[pre H]|(pre & ws & H & _)]);
        unfold line in H; destruct pre; discriminate.
    - unfold getPrNumber. cbn [of_string truthy string_truthy negb from_option Datatypes.id].
      fold line.
      destruct (exec noflags PR_REFERENCE line) as [[b e]|] eqn:E.
      + left. destruct (exec_PR_REFERENCE_sound _ _ _ E) as (ds & Hf & ->).
        exists ds. split; [exact Hf|].
        pose proof Hf as (Hne & Hd & _). destruct ds as [|d ds]; [congruence|].
        now rewrite parseInt_digits.
      + right. split; [|reflexivity]. intros (ds & Hf).
        apply exec_PR_REFERENCE_complete in Hf. rewrite E in Hf. now destruct Hf. }
  split; [|split; [|split]].
  - intros n. split.
    + intros Hn. destruct Hcases as [(ds & Hf & Hg)|[_ Hg]]; [|congruence].
      exists ds. split; [exact Hf|congruence].
    + intros (ds & Hf & ->). destruct Hcases as [(ds' & Hf' & Hg)|[Hno _]].
      * now rewrite (pr_reference_form_unique _ _ _ Hf Hf').
      * exfalso. eauto.
  - intros ds Hf Hb. destruct Hcases as [(ds' & Hf' & Hg)|[Hno _]].
    + rewrite Hg, <- (pr_reference_form_unique _ _ _ Hf Hf'). f_equal.
      apply double_of_Z_exact. pose proof (digits_value_nonneg ds). lia.
    + exfalso. eauto.
  - split.
    + intros Hn. destruct Hcases as [(ds & Hf & Hg)|[Hno _]]; [congruence|exact Hno].
    + intros Hno. destruct Hcases as [(ds & Hf & Hg)|[_ Hg]]; [|exact Hg].
      exfalso. eauto.
  - apply pr_reference_form_unique.
Qed.

Lemma getPrNumber_spec_witness :
  getPrNumber (Some (js "feat: Add new feature (closes #456) (#789)")) = Some (Int 789).
Proof.
  apply (proj2 (proj1 (proj2 getPrNumber_spec
                         (js "feat: Add new feature (closes #456) (#789)")) (Int 789))).
  exists (js "789"). split; [|reflexivity].
  split; [discriminate|]. split; [reflexivity|].
  left. exists (js "feat: Add new feature (closes #456) "). reflexivity.
Defined.

(** ** [cleanSummary] *)

Section Removal.
Variables (fl : flags) (r : regex) (text : str -> Prop) (p : N -> bool).

Hypothesis r_sound : forall bef rst e,
  rmatch fl r (MState bef rst ∅) Some = Some e ->
  exists m, rst = m ++ rest e /\ line_start bef /\ text m /\ ends_run p (rest e).

Hypothesis r_complete : forall bef m b,
  line_start bef -> text m -> is_Some (rmatch fl r (MState bef (m ++ b) ∅) Some).

Hypothesis text_nonempty : forall m, text m -> m <> [].

Lemma no_text_here bef rst :
  rmatch fl r (MState bef rst ∅) Some = None ->
  forall m b, rst = m ++ b -> line_start bef -> ~ text m.
Proof using r_complete.
  intros Hn m b -> Hl Ht. destruct (r_complete bef m b Hl Ht) as [x Hx]. congruence.
Qed.

Lemma exec_from_cut_first : forall rst bef,
  match exec_from fl r bef rst with
  | Some (b, e) =>
      exists pre, before b = rev pre ++ bef /\ cut_first fl r bef rst = pre ++ rest e
  | None => cut_first fl r bef rst = rst
  end.
Proof using Type.
  induction rst as [|c t IH]; intros bef; simpl.
  - destruct (rmatch fl r (MState bef [] ∅) Some); [|reflexivity]. now exists [].
  - destruct (rmatch fl r (MState bef (c :: t) ∅) Some); [now exists []|].
    specialize (IH (c :: bef)). destruct (exec_from fl r (c :: bef) t) as [[b e]|].
    + destruct IH as (pre & Hb & Hc). exists (c :: pre). simpl.
      rewrite <- app_assoc. now rewrite Hb, Hc.
    + now rewrite IH.
Qed.

Lemma replace_cut_first s :
  global fl = false -> replace fl r [] s = cut_first fl r [] s.
Proof using Type.
  intros Hg. unfold replace, exec. rewrite Hg.
  pose proof (exec_from_cut_first s []) as H.
  destruct (exec_from fl r [] s) as [[b e]|]; [|now rewrite H].
  destruct H as (pre & Hb & ->). now rewrite Hb, app_nil_r, rev_involutive.
Qed.

Lemma cut_first_removed : forall rst bef,
  removed text p false bef rst (cut_first fl r bef rst).
Proof using r_sound r_complete text_nonempty.
  induction rst as [|c t IH]; intros bef; simpl.
  - destruct (rmatch fl r (MState bef [] ∅) Some) as [e|] eqn:E; [|constructor].
    destruct (r_sound _ _ _ E) as (m & Hm & Hl & Ht & He).
    destruct m; [now apply text_nonempty in Ht|discriminate].
  - destruct (rmatch fl r (MState bef (c :: t) ∅) Some) as [e|] eqn:E.
    + destruct (r_sound _ _ _ E) as (m & -> & Hl & Ht & He).
      now apply removed_once.
    + apply removed_keep; [now apply no_text_here|apply IH].
Qed.

Lemma replace_scan_skip : forall n rst bef,
  (n <= length rst)%nat ->
  replace_scan fl r [] bef rst n
  = replace_scan fl r [] (rev (take n rst) ++ bef) (drop n rst) O.
Proof using Type.
  induction n as [|n IH]; intros rst bef Hn.
  - now rewrite take_0, drop_0.
  - destruct rst as [|c t]; [simpl in Hn; lia|].
    simpl in Hn. cbn [replace_scan]. rewrite IH by lia.
    cbn [take drop rev]. now rewrite <- app_assoc.
Qed.

Lemma replace_scan_removed : forall n rst bef,
  (length rst <= n)%nat ->
  removed text p true bef rst (replace_scan fl r [] bef rst O).
Proof using r_sound r_complete text_nonempty.
  induction n as [|n IH]; intros rst bef Hn.
  - destruct rst; [|simpl in Hn; lia]. simpl.
    destruct (rmatch fl r (MState bef [] ∅) Some) as [e|] eqn:E; [|constructor].
    destruct (r_sound _ _ _ E) as (m & Hm & Hl & Ht & He).
    destruct m; [now apply text_nonempty in Ht|discriminate].
  - destruct rst as [|c t].
    { apply (IH [] bef). simpl. lia. }
    cbn [replace_scan].
    destruct (rmatch fl r (MState bef (c :: t) ∅) Some) as [e|] eqn:E.
    + destruct (r_sound _ _ _ E) as (m & Hm & Hl & Ht & He).
      destruct m as [|d m]; [now apply text_nonempty in Ht|].
      injection Hm as <- ->. rewrite app_nil_l.
      replace (length (c :: m ++ rest e) - length (rest e))%nat with (S (length m))
        by (simpl; rewrite length_app; lia).
      rewrite replace_scan_skip by (rewrite length_app; lia).
      rewrite take_app_length, drop_app_length.
      change (c :: m ++ rest e) with ((c :: m) ++ rest e).
      apply removed_every; auto.
      simpl. rewrite <- app_assoc. apply IH.
      simpl in Hn. rewrite length_app in Hn. lia.
    + apply removed_keep; [now apply no_text_here|].
      apply IH. simpl in Hn. lia.
Qed.

Lemma replace_removed s :
  removed text p (global fl) [] s (replace fl r [] s).
Proof using r_sound r_complete text_nonempty.
  destruct (global fl) eqn:Hg.
  - unfold replace. rewrite Hg. now apply (replace_scan_removed (length s)).
  - rewrite replace_cut_first by exact Hg. apply cut_first_removed.
Qed.

(** Where no text starts at any line start, nothing matches. *)
Lemma no_text_no_match s :
  (forall a m b, s = a ++ m ++ b -> line_start (rev a) -> ~ text m) ->
  test fl r s = false.
Proof using r_sound.
  intros Hno. unfold test.
  destruct (exec fl r s) as [[b e]|] eqn:E; [|reflexivity].
  destruct (exec_from_sound _ _ _ _ _ _ E) as (pre & Hs & Hb & Hm & _).
  rewrite Hb in Hm. rewrite app_nil_r in Hm.
  destruct (r_sound _ _ _ Hm) as (m & Hr & Hl & Ht & _). simpl in Hr.
  exfalso. apply (Hno pre m (rest e)); [now rewrite <- Hr|exact Hl|exact Ht].
Qed.
End Removal.

(** *** Texts of the metadata patterns *)

Section Recognizes.
Variable fl : flags.

Lemma recognizes_empty : recognizes fl REmpty nothing.
Proof using Type.
  split.
  - intros s s' ->. now exists [].
  - intros s x t Hx Hr. unfold nothing in Hx. subst x. exists s. simpl. auto.
Qed.

Lemma recognizes_seq a b A B :
  recognizes fl a A -> recognizes fl b B -> recognizes fl (RSeq a b) (cat A B).
Proof using Type.
  intros [Sa Ca] [Sb Cb]. split.
  - intros s s' (m & Ha & Hb).
    destruct (Sa _ _ Ha) as (u & Hu & Hr & Hbf), (Sb _ _ Hb) as (v & Hv & Hr' & Hbf').
    exists (u ++ v). split; [now exists u, v|].
    rewrite Hr, Hr', Hbf', Hbf, rev_app_distr, <- !app_assoc. auto.
  - intros s x t (u & v & -> & Hu & Hv) Hr. rewrite <- app_assoc in Hr.
    destruct (Ca s u (v ++ t) Hu Hr) as (m & Ha & Hm & Hbf).
    destruct (Cb m v t Hv Hm) as (s' & Hb & Hs' & Hbf').
    exists s'. split; [now exists m|]. split; [exact Hs'|].
    now rewrite Hbf', Hbf, rev_app_distr, <- app_assoc.
Qed.

Lemma recognizes_seq_empty a A : recognizes fl a A -> recognizes fl (RSeq a REmpty) A.
Proof using Type.
  intros [Sa Ca]. split.
  - intros s s' (m & Ha & ->). now apply Sa.
  - intros s x t Hx Hr. destruct (Ca s x t Hx Hr) as (s' & Ha & H).
    exists s'. split; [now exists s'|exact H].
Qed.

Lemma recognizes_alt a b A B :
  recognizes fl a A -> recognizes fl b B -> recognizes fl (RAlt a b) (alt A B).
Proof using Type.
  intros [Sa Ca] [Sb Cb]. split.
  - intros s s' [H|H]; [destruct (Sa _ _ H) as (x & Hx & E)|destruct (Sb _ _ H) as (x & Hx & E)];
      exists x; (split; [|exact E]); [now left|now right].
  - intros s x t [Hx|Hx] Hr;
      [destruct (Ca s x t Hx Hr) as (s' & H & E)|destruct (Cb s x t Hx Hr) as (s' & H & E)];
      exists s'; (split; [|exact E]); [now left|now right].
Qed.

Lemma recognizes_opt a A : recognizes fl a A -> recognizes fl (ROpt a) (opt A).
Proof using Type. intros H. apply recognizes_alt; [exact H|apply recognizes_empty]. Qed.

Lemma recognizes_star p : recognizes fl (RStar p) (all p).
Proof using Type.
  split.
  - intros s s' (w & t & Hr & Hw & ->). now exists w.
  - intros s x t Hx Hr. eexists. split; [exists x, t; eauto|]. auto.
Qed.

Lemma recognizes_plus p : recognizes fl (RPlus p) (some p).
Proof using Type.
  split.
  - intros s s' (m & (d & t & Hr & Hd & ->) & (w & t' & Hr' & Hw & ->)).
    simpl in *. subst t. exists (d :: w). split; [|split].
    + split; [discriminate|]. simpl. now rewrite Hd.
    + exact Hr.
    + simpl. now rewrite <- app_assoc.
  - intros s x t [Hne Hx] Hr. destruct x as [|d w]; [congruence|].
    simpl in Hx. apply andb_prop in Hx as [Hd Hw].
    eexists. split.
    + eexists. split; [exists d, (w ++ t); eauto|].
      exists w, t. simpl. eauto.
    + simpl. rewrite <- app_assoc. auto.
Qed.

Lemma recognizes_group i a A : recognizes fl a A -> recognizes fl (RGroup i a) A.
Proof using Type.
  intros [Sa Ca]. split.
  - intros s s' (m & Ha & ->). simpl. now apply Sa.
  - intros s x t Hx Hr. destruct (Ca s x t Hx Hr) as (m & Ha & Hm & Hbf).
    eexists. split; [exists m; eauto|]. simpl. auto.
Qed.

(** A unit that is no letter matches itself only, also without regard to
    case. *)
Lemma canonicalize_no_letter c d :
  (c < 65 \/ 90 < c < 97 \/ 122 < c) ->
  canonicalize fl d = canonicalize fl c <-> d = c.
Proof using Type.
  intros Hc. unfold canonicalize. split; [|now intros ->].
  destruct (ignoreCase fl); simpl; [|auto].
  destruct (N.leb_spec 97 d), (N.leb_spec d 122), (N.leb_spec 97 c), (N.leb_spec c 122);
    simpl; lia.
Qed.

Lemma recognizes_char (c : ascii) :
  (chr c < 65 \/ 90 < chr c < 97 \/ 122 < chr c) ->
  recognizes fl (RChar (chr c)) (unit c).
Proof using Type.
  intros Hc. split.
  - intros s s' (d & t & Hr & Hd & ->).
    apply (proj1 (canonicalize_no_letter (chr c) d Hc)) in Hd.
    subst d. now exists [chr c].
  - intros s x t Hx Hr. unfold unit in Hx. subst x.
    eexists. split; [exists (chr c), t; eauto|]. auto.
Qed.

Lemma canonicalize_im c : ignoreCase fl = true -> canonicalize fl c = canonicalize im c.
Proof using Type. intros H. unfold canonicalize. now rewrite H. Qed.

Lemma recognizes_chars l :
  ignoreCase fl = true ->
  recognizes fl (rseq (map RChar l))
    (fun x => map (canonicalize im) x = map (canonicalize im) l).
Proof using Type.
  intros Hi. induction l as [|c l [Sl Cl]].
  - split.
    + intros s s' ->. now exists [].
    + intros s x t Hx Hr. destruct x; [|discriminate]. exists s. simpl. auto.
  - split.
    + intros s s' (m & (d & t & Hr & Hd & ->) & Hm).
      destruct (Sl _ _ Hm) as (x & Hx & Hr' & Hbf). simpl in *. subst t.
      exists (d :: x). simpl. rewrite <- !canonicalize_im, Hd, Hx by exact Hi.
      rewrite <- app_assoc. auto.
    + intros s x t Hx Hr. destruct x as [|d x]; [discriminate|].
      simpl in Hx. injection Hx as Hd Hx.
      destruct (Cl (MState (d :: before s) (x ++ t) (caps s)) x t Hx eq_refl)
        as (s' & Hs' & Ht & Hbf).
      exists s'. split; [|split; [exact Ht|]].
      * exists (MState (d :: before s) (x ++ t) (caps s)). split; [|exact Hs'].
        exists d, (x ++ t). rewrite !canonicalize_im by exact Hi. auto.
      * simpl in *. now rewrite Hbf, <- app_assoc.
Qed.

Lemma recognizes_lit w : ignoreCase fl = true -> recognizes fl (lit w) (word w).
Proof using Type. intros Hi. exact (recognizes_chars (js w) Hi). Qed.
End Recognizes.

Lemma take_drop_while p s : s = take_while p s ++ drop_while p s.
Proof.
  induction s as [|c t IH]; simpl; [reflexivity|].
  destruct (p c); simpl; [now f_equal|reflexivity].
Qed.

Lemma take_while_all p s : forallb p (take_while p s) = true.
Proof.
  induction s as [|c t IH]; simpl; [reflexivity|].
  destruct (p c) eqn:E; simpl; [now rewrite E|reflexivity].
Qed.

Lemma drop_while_ends p s : ends_run p (drop_while p s).
Proof.
  unfold ends_run. destruct (drop_while p s) as [|c t] eqn:E; [exact I|].
  exact (drop_while_head _ _ _ _ E).
Qed.

(** A star with nothing to fail behind it takes the whole run. *)
Lemma star_match_greedy p k :
  (forall st, is_Some (k st)) ->
  forall rst bef cs,
    star_match p k bef rst cs
    = k (MState (rev (take_while p rst) ++ bef) (drop_while p rst) cs).
Proof.
  intros Hk. induction rst as [|c t IH]; intros bef cs; simpl; [reflexivity|].
  destruct (p c); [|reflexivity].
  rewrite IH. simpl. rewrite <- app_assoc. simpl.
  now destruct (Hk (MState (rev (take_while p t) ++ c :: bef) (drop_while p t) cs)) as [x ->].
Qed.

Section LinePattern.
Variables (fl : flags) (PRE : regex) (i : nat) (p : N -> bool) (L : str -> Prop).
Hypothesis fl_multiline : multiline fl = true.
Hypothesis PRE_recognizes : recognizes fl PRE L.

Lemma at_bol_multiline bef : at_bol fl bef = at_bol im bef.
Proof using fl_multiline. unfold at_bol. destruct bef; [reflexivity|]. now rewrite fl_multiline. Qed.

Lemma line_pattern_sound bef rst e :
  rmatch fl (line_pattern PRE i p) (MState bef rst ∅) Some = Some e ->
  exists m, rst = m ++ rest e /\ line_start bef /\ cat L (some p) m
            /\ ends_run p (rest e).
Proof using fl_multiline PRE_recognizes.
  unfold line_pattern. cbn [rmatch before]. rewrite at_bol_multiline.
  destruct (at_bol im bef) eqn:Hb; [|discriminate]. intros H.
  apply rmatch_sound in H as (s1 & Hpre & H).
  destruct PRE_recognizes as [Spre _].
  destruct (Spre _ _ Hpre) as (u & Hu & Hr & _). simpl in Hr.
  unfold RPlus in H. cbn [rmatch] in H.
  destruct (rest s1) as [|d t] eqn:Hs1; [discriminate|].
  destruct (p d) eqn:Hd; [|discriminate].
  cbn [before rest caps] in H. rewrite star_match_greedy in H by eauto.
  injection H as <-. cbn [rest].
  exists (u ++ d :: take_while p t). split; [|split; [exact Hb|split]].
  - rewrite Hr, <- app_assoc. simpl. now rewrite <- take_drop_while.
  - exists u, (d :: take_while p t). split; [reflexivity|]. split; [exact Hu|].
    split; [discriminate|]. simpl. now rewrite Hd, take_while_all.
  - apply drop_while_ends.
Qed.

Lemma line_pattern_complete bef m b :
  line_start bef -> cat L (some p) m ->
  is_Some (rmatch fl (line_pattern PRE i p) (MState bef (m ++ b) ∅) Some).
Proof using fl_multiline PRE_recognizes.
  intros Hb (u & v & -> & Hu & Hv).
  destruct PRE_recognizes as [_ Cpre].
  destruct (Cpre (MState bef ((u ++ v) ++ b) ∅) u (v ++ b) Hu) as (s1 & H1 & Hr1 & _).
  { simpl. now rewrite <- app_assoc. }
  destruct (recognizes_group fl i _ _ (recognizes_plus fl p)) as [_ Cg].
  destruct (Cg s1 v b Hv Hr1) as (s2 & H2 & _).
  apply (rmatch_complete fl _ _ s2); [|eauto].
  unfold line_pattern. cbn [sem]. eexists. split.
  - split; [|reflexivity]. simpl. now rewrite at_bol_multiline.
  - exists s1. split; [exact H1|]. now exists s2.
Qed.

Lemma line_text_nonempty m : cat L (some p) m -> m <> [].
Proof using Type.
  intros (u & v & -> & _ & Hne & _) H. apply app_eq_nil in H as [_ H]. contradiction.
Qed.
End LinePattern.

Ltac recognize :=
  repeat first
    [ apply recognizes_empty
    | apply recognizes_seq_empty
    | apply recognizes_seq
    | apply recognizes_alt
    | apply recognizes_opt
    | apply recognizes_star
    | apply recognizes_plus
    | apply recognizes_lit; assumption
    | apply recognizes_char; left; reflexivity ].

Lemma PR_PREFIX_recognizes fl : ignoreCase fl = true -> recognizes fl PR_PREFIX pr_prefix.
Proof. intros Hi. unfold PR_PREFIX, rseq. cbn [foldr]. recognize. Qed.

Lemma COMMIT_PREFIX_recognizes fl :
  ignoreCase fl = true -> recognizes fl COMMIT_PREFIX commit_prefix.
Proof. intros Hi. unfold COMMIT_PREFIX. recognize. Qed.

Lemma AUTHOR_PREFIX_recognizes fl :
  ignoreCase fl = true -> recognizes fl AUTHOR_PREFIX author_prefix.
Proof. intros Hi. unfold AUTHOR_PREFIX. recognize. Qed.

(** The patterns of the source run like their regrouped forms: the
    matcher passes through a sequence in the same way however it is
    bracketed. *)
Lemma PR_LINE_rmatch s k :
  rmatch im PR_LINE s k = rmatch im (line_pattern PR_PREFIX 1 is_digit) s k.
Proof. reflexivity. Qed.

Lemma COMMIT_LINE_rmatch s k :
  rmatch im COMMIT_LINE s k = rmatch im (line_pattern COMMIT_PREFIX 1 non_space) s k.
Proof. reflexivity. Qed.

Lemma AUTHOR_LINE_rmatch s k :
  rmatch gim AUTHOR_LINE s k = rmatch gim (line_pattern AUTHOR_PREFIX 1 non_space) s k.
Proof. reflexivity. Qed.

Lemma no_match_no_text fl r (text : str -> Prop) :
  (forall bef m b, line_start bef -> text m ->
     is_Some (rmatch fl r (MState bef (m ++ b) ∅) Some)) ->
  forall s, test fl r s = false ->
  forall a m b, s = a ++ m ++ b -> line_start (rev a) -> ~ text m.
Proof.
  intros Hc s Ht a m b -> Hl Hm. unfold test, exec in Ht.
  destruct (exec_from_complete fl r a (m ++ b) []) as [x Hx].
  - rewrite app_nil_r. now apply Hc.
  - now rewrite Hx in Ht.
Qed.

Lemma PR_LINE_sound bef rst e :
  rmatch im PR_LINE (MState bef rst ∅) Some = Some e ->
  exists m, rst = m ++ rest e /\ line_start bef /\ pr_text m /\ ends_run is_digit (rest e).
Proof.
  rewrite PR_LINE_rmatch.
  exact (line_pattern_sound im PR_PREFIX 1 is_digit pr_prefix eq_refl
           (PR_PREFIX_recognizes im eq_refl) bef rst e).
Qed.

Lemma PR_LINE_complete bef m b :
  line_start bef -> pr_text m -> is_Some (rmatch im PR_LINE (MState bef (m ++ b) ∅) Some).
Proof.
  rewrite PR_LINE_rmatch.
  exact (line_pattern_complete im PR_PREFIX 1 is_digit pr_prefix eq_refl
           (PR_PREFIX_recognizes im eq_refl) bef m b).
Qed.

Lemma COMMIT_LINE_sound bef rst e :
  rmatch im COMMIT_LINE (MState bef rst ∅) Some = Some e ->
  exists m, rst = m ++ rest e /\ line_start bef /\ commit_text m
            /\ ends_run non_space (rest e).
Proof.
  rewrite COMMIT_LINE_rmatch.
  exact (line_pattern_sound im COMMIT_PREFIX 1 non_space commit_prefix eq_refl
           (COMMIT_PREFIX_recognizes im eq_refl) bef rst e).
Qed.

Lemma COMMIT_LINE_complete bef m b :
  line_start bef -> commit_text m ->
  is_Some (rmatch im COMMIT_LINE (MState bef (m ++ b) ∅) Some).
Proof.
  rewrite COMMIT_LINE_rmatch.
  exact (line_pattern_complete im COMMIT_PREFIX 1 non_space commit_prefix eq_refl
           (COMMIT_PREFIX_recognizes im eq_refl) bef m b).
Qed.

Lemma AUTHOR_LINE_sound bef rst e :
  rmatch gim AUTHOR_LINE (MState bef rst ∅) Some = Some e ->
  exists m, rst = m ++ rest e /\ line_start bef /\ author_text m
            /\ ends_run non_space (rest e).
Proof.
  rewrite AUTHOR_LINE_rmatch.
  exact (line_pattern_sound gim AUTHOR_PREFIX 1 non_space author_prefix eq_refl
           (AUTHOR_PREFIX_recognizes gim eq_refl) bef rst e).
Qed.

Lemma AUTHOR_LINE_complete bef m b :
  line_start bef -> author_text m ->
  is_Some (rmatch gim AUTHOR_LINE (MState bef (m ++ b) ∅) Some).
Proof.
  rewrite AUTHOR_LINE_rmatch.
  exact (line_pattern_complete gim AUTHOR_PREFIX 1 non_space author_prefix eq_refl
           (AUTHOR_PREFIX_recognizes gim eq_refl) bef m b).
Qed.

(** C9, as amended. [cleanSummary] leaves out of the summary, in this
    order: the first text, from a line start, of white space, [pr], [pull]
    or [pull request] in any case, a colon, white space, an optional [#]
    and a run of digits; the first such text with [commit], a colon, white
    space and a run of units that are not white space; and every such text
    with [author] or [user], a colon, white space, an optional [@] and a
    run of units that are not white space. Only the matched text goes, not
    the rest of its line; every other unit stays, in order; the result is
    trimmed. Where none of the three texts starts at a line start, the
    result is the trimmed summary. *)
Theorem cleanSummary_removes (summary : str) :
  (exists s1 s2 s3,
     removed pr_text is_digit false [] summary s1
     /\ removed commit_text non_space false [] s1 s2
     /\ removed author_text non_space true [] s2 s3
     /\ cleanSummary summary = trim s3)
  /\ ((forall a m b, summary = a ++ m ++ b -> line_start (rev a) ->
         ~ (pr_text m \/ commit_text m \/ author_text m)) ->
      cleanSummary summary = trim summary).
Proof.
  split.
  - exists (replace im PR_LINE [] summary),
      (replace im COMMIT_LINE [] (replace im PR_LINE [] summary)),
      (replace gim AUTHOR_LINE []
         (replace im COMMIT_LINE [] (replace im PR_LINE [] summary))).
    split; [|split; [|split; [|reflexivity]]].
    + apply (replace_removed im PR_LINE pr_text is_digit PR_LINE_sound PR_LINE_complete).
      apply line_text_nonempty.
    + apply (replace_removed im COMMIT_LINE commit_text non_space
               COMMIT_LINE_sound COMMIT_LINE_complete).
      apply line_text_nonempty.
    + apply (replace_removed gim AUTHOR_LINE author_text non_space
               AUTHOR_LINE_sound AUTHOR_LINE_complete).
      apply line_text_nonempty.
  - intros Hno. unfold cleanSummary.
    rewrite (replace_no_match im PR_LINE).
    2:{ apply (no_text_no_match im PR_LINE pr_text is_digit PR_LINE_sound).
        intros a m b Hs Hl Hm. apply (Hno a m b Hs Hl). auto. }
    rewrite (replace_no_match im COMMIT_LINE).
    2:{ apply (no_text_no_match im COMMIT_LINE commit_text non_space COMMIT_LINE_sound).
        intros a m b Hs Hl Hm. apply (Hno a m b Hs Hl). auto. }
    rewrite (replace_no_match gim AUTHOR_LINE).
    2:{ apply (no_text_no_match gim AUTHOR_LINE author_text non_space AUTHOR_LINE_sound).
        intros a m b Hs Hl Hm. apply (Hno a m b Hs Hl). auto. }
    reflexivity.
Qed.

Lemma cleanSummary_removes_witness :
  cleanSummary (js "This is a plain summary") = trim (js "This is a plain summary").
Proof.
  apply (proj2 (cleanSummary_removes (js "This is a plain summary"))).
  intros a m b Hs Hl [H|[H|H]]; revert H.
  - apply (no_match_no_text im PR_LINE pr_text PR_LINE_complete
             (js "This is a plain summary") eq_refl a m b Hs Hl).
  - apply (no_match_no_text im COMMIT_LINE commit_text COMMIT_LINE_complete
             (js "This is a plain summary") eq_refl a m b Hs Hl).
  - apply (no_match_no_text gim AUTHOR_LINE author_text AUTHOR_LINE_complete
             (js "This is a plain summary") eq_refl a m b Hs Hl).
Defined.

(** C9, the inputs that refute the claim as stated: the metadata line is
    not removed, only the matched prefix is, and what follows it on the
    line stays (the first input is the repository's test "removes PR
    prefix"). *)
Lemma cleanSummary_keeps_rest_of_line :
  cleanSummary (js "PR: #123 Add new feature") = js "Add new feature"
  /\ cleanSummary (js "Title" ++ [10] ++ js "pr: #1 rest" ++ [10] ++ js "Body")
     = js "Title" ++ [10] ++ js " rest" ++ [10] ++ js "Body".
Proof. split; vm_compute; reflexivity. Qed.





(** ** The repository's tests, on the embedding *)

Example test_cleanSummary_multiple_prefixes :
  cleanSummary (js "pr: #123" ++ [10] ++ js "commit: abc123" ++ [10]
                ++ js "author: @user" ++ [10] ++ js "Add feature")
  = js "Add feature".
Proof. vm_compute. reflexivity. Qed.

Example test_cleanSummary_trims :
  cleanSummary (js "  pr: #123 Add feature  ") = js "Add feature".
Proof. vm_compute. reflexivity. Qed.

Example test_getPrNumber_multiple_references :
  getPrNumber (Some (js "fix: Related to (#22) but actually fixes (#33)"))
  = Some (Int 33).
Proof. vm_compute. reflexivity. Qed.

Example test_getPrNumber_trailing_spaces :
  getPrNumber (Some (js "chore: Update lockfile (#88)  ")) = Some (Int 88).
Proof. vm_compute. reflexivity. Qed.

Example test_getPrNumber_non_numeric :
  getPrNumber (Some (js "docs: Update README (#abc)")) = None.
Proof. vm_compute. reflexivity. Qed.

Example test_getPrNumber_first_line_only :
  getPrNumber (Some (js "feat: Add new feature" ++ [10; 10] ++ js "Resolves #456")) = None.
Proof. vm_compute. reflexivity. Qed.

Example test_validate_invalid_formats :
  map (fun s => validate (JObject {[ js "repo" := JString (js s) ]}))
    ["owner"; "/repo"; "owner/"; "owner/repo/extra"; "owner repo"; " owner/repo";
     "owner/repo "]%string
  = repeat (Throws (MkError invalid_repo_message)) 7.
Proof. vm_compute. reflexivity. Qed.

Example test_getReleaseLine_multiline :
  fst (run (getReleaseLine (world_with (plain_repository (js "Add new feature (#456)")))
              {| id := js "changeset-1"; commit := Some (js "abc1234567890");
                 summary := js "Add new feature" ++ [10] ++ js "With detailed description"
                            ++ [10] ++ js "And more details";
                 releases := [{| rel_name := js "pkg"; rel_type := minor |}] |}
              minor owner_repo))
  = Returns ([10] ++ js "- Add new feature ([#456](https://github.com/owner/repo/pull/456))"
             ++ [10] ++ js "  With detailed description" ++ [10] ++ js "  And more details").
Proof. vm_compute. reflexivity. Qed.

Example test_getReleaseLine_lookup_error :
  run (getReleaseLine (world_with failing_repository)
         (fix_a_bug (Some (js "abc1234567890"))) patch owner_repo)
  = (Returns ([10] ++ js "- Fix a bug ([`abc1234`](https://github.com/owner/repo/commit/abc1234567890))"
              ++ [10]),
     [Discover; FindCommit (js "abc1234567890");
      Warn [LogString (js "Failed to get commit message for abc1234567890:");
            LogError (MkError (js "Git error"))]]).
Proof. vm_compute. reflexivity. Qed.

Example test_getDependencyReleaseLine_one_commit :
  getDependencyReleaseLine
    [ {| id := js "changeset-1"; commit := None; summary := js "A summary";
         releases := [{| rel_name := js "pkg"; rel_type := minor |}] |};
      {| id := js "changeset-2"; commit := Some (js "def1234567890");
         summary := js "Another summary";
         releases := [{| rel_name := js "pkg"; rel_type := patch |}] |} ]
    [pkg_1] owner_repo
  = Returns (js "- Updated dependencies [[`def1234`](https://github.com/owner/repo/commit/def1234567890)]:"
             ++ [10] ++ js "  - pkg-1@1.0.0").
Proof. vm_compute. reflexivity. Qed.

(** ** [parseInt] beyond 2^53 *)

(** Long runs of digits are rounded to the nearest double, a tie to the
    even one; from [2^1024 - 2^970] on the result is the infinity. *)
Example test_parseInt_rounds :
  parseInt (js "9007199254740992") = Int 9007199254740992
  /\ parseInt (js "9007199254740993") = Int 9007199254740992
  /\ parseInt (js "9007199254740995") = Int 9007199254740996
  /\ parseInt (js "18446744073709551615") = Int 18446744073709551616
  /\ parseInt (js "123456789012345678901234567890")
     = Int 123456789012345677877719597056
  /\ parseInt (js "-9007199254740993") = Int (-9007199254740992)
  /\ parseInt (js "  42px") = Int 42
  /\ parseInt (js "px") = NaN.
Proof. vm_compute. repeat split. Qed.

Example test_parseInt_overflow :
  double_of_Z (2 ^ 1024 - 2 ^ 970 - 1) = Int ((2 ^ 53 - 1) * 2 ^ 971)
  /\ double_of_Z (2 ^ 1024 - 2 ^ 970) = Infinity false
  /\ double_of_Z (- (2 ^ 1024 - 2 ^ 970)) = Infinity true
  /\ parseInt (replicate 308 (chr "9")) = double_of_Z (10 ^ 308)
  /\ double_of_Z (10 ^ 308) <> Infinity false
  /\ parseInt (replicate 309 (chr "9")) = Infinity false
  /\ getPrNumber (Some (js "Fix (#" ++ replicate 400 (chr "9") ++ js ")"))
     = Some (Infinity false)
  /\ getSuffix (Some (Infinity false)) None {| repo := js "owner/repo" |}
     = js " ([#Infinity](https://github.com/owner/repo/pull/Infinity))".
Proof. vm_compute. repeat split. discriminate. Qed.

(** * Further properties of the code *)

(** ** Links *)

Lemma js_cons c t : js (String c t) = N_of_ascii c :: js t.
Proof. reflexivity. Qed.

Lemma js_inj s t : js s = js t -> s = t.
Proof.
  revert t. induction s as [|c s IH]; intros [|d t]; rewrite ?js_cons; try discriminate.
  - reflexivity.
  - intros [= Hc Hs]. apply (f_equal ascii_of_N) in Hc. rewrite !ascii_N_embedding in Hc.
    f_equal; auto.
Qed.

(** The digits of a decimal numeral, read by [digits_value], give the
    number it stands for. *)
Lemma digits_value_uint_acc d : forall d',
  fold_left (fun acc c => (10 * acc + Z.of_N (c - 48))%Z)
    (js (NilEmpty.string_of_uint d)) (Z.of_N (DecimalPos.Unsigned.of_lu d'))
  = Z.of_N (DecimalPos.Unsigned.of_lu (Decimal.revapp d d')).
Proof.
  induction d; intros d'; cbn [NilEmpty.string_of_uint]; rewrite ?js_cons;
    [reflexivity|..]; cbn [fold_left Decimal.revapp]; rewrite <- IHd; f_equal;
    rewrite (DecimalPos.Unsigned.of_lu_eqn (_ d')); cbn [DecimalPos.Unsigned.hd DecimalPos.Unsigned.tl];
    change (N_of_ascii _ - 48) with 0 || change (N_of_ascii _ - 48) with 1
    || change (N_of_ascii _ - 48) with 2 || change (N_of_ascii _ - 48) with 3
    || change (N_of_ascii _ - 48) with 4 || change (N_of_ascii _ - 48) with 5
    || change (N_of_ascii _ - 48) with 6 || change (N_of_ascii _ - 48) with 7
    || change (N_of_ascii _ - 48) with 8 || change (N_of_ascii _ - 48) with 9; lia.
Qed.

Lemma digits_value_uint d :
  digits_value (js (NilEmpty.string_of_uint d)) = Z.of_N (Pos.of_uint d).
Proof.
  rewrite DecimalPos.Unsigned.of_uint_alt. exact (digits_value_uint_acc d Decimal.Nil).
Qed.

Lemma uint_digits d : forallb is_digit (js (NilEmpty.string_of_uint d)) = true.
Proof.
  induction d; cbn [NilEmpty.string_of_uint]; rewrite ?js_cons; [reflexivity|..];
    cbn [forallb]; rewrite IHd; reflexivity.
Qed.

Lemma uint_nonempty d : d <> Decimal.Nil -> js (NilEmpty.string_of_uint d) <> [].
Proof. destruct d; cbn [NilEmpty.string_of_uint]; rewrite ?js_cons; congruence. Qed.

(** The decimal numeral of a natural number is a non-empty run of digits,
    and [digits_value] reads the number back from it. *)
Lemma number_to_string_digits (n : N) :
  number_to_string (Int (Z.of_N n)) <> []
  /\ forallb is_digit (number_to_string (Int (Z.of_N n))) = true
  /\ digits_value (number_to_string (Int (Z.of_N n))) = Z.of_N n.
Proof.
  destruct n as [|p]; [repeat split; discriminate|].
  change (number_to_string (Int (Z.of_N (N.pos p))))
    with (js (NilZero.string_of_uint (Pos.to_uint p))).
  assert (E : NilZero.string_of_uint (Pos.to_uint p)
              = NilEmpty.string_of_uint (Pos.to_uint p)).
  { pose proof (DecimalPos.Unsigned.to_uint_nonnil p).
    destruct (Pos.to_uint p); [congruence|reflexivity..]. }
  rewrite E. split; [|split].
  - apply uint_nonempty, DecimalPos.Unsigned.to_uint_nonnil.
  - apply uint_digits.
  - now rewrite digits_value_uint, DecimalPos.Unsigned.of_to.
Qed.

Lemma to_int_nonnil z :
  Z.to_int z <> Decimal.Pos Decimal.Nil /\ Z.to_int z <> Decimal.Neg Decimal.Nil.
Proof.
  destruct z as [|p|p]; cbn [Z.to_int]; split; try discriminate;
    intros [= E]; exact (DecimalPos.Unsigned.to_uint_nonnil p E).
Qed.

Lemma number_to_string_inj n n' : number_to_string n = number_to_string n' -> n = n'.
Proof.
  assert (Hi : forall s z, NilZero.int_of_string s = None ->
                 js s <> js (NilZero.string_of_int (Z.to_int z))).
  { intros s z Hs H. apply js_inj in H.
    rewrite H, NilZero.isi in Hs by apply to_int_nonnil. discriminate. }
  destruct n as [|[]|z], n' as [|[]|z']; cbn [number_to_string]; intros H;
    try reflexivity; try (apply js_inj in H; discriminate);
    try (now apply Hi in H); try (symmetry in H; now apply Hi in H).
  f_equal. apply DecimalZ.to_int_inj. apply js_inj in H.
  apply (f_equal NilZero.int_of_string) in H.
  rewrite !NilZero.isi in H by apply to_int_nonnil. congruence.
Qed.

(** X1. The links of one repository tell commits and pull requests apart:
    [getCommitUrl] is injective in the hash and [getPrUrl] in the number,
    and a commit link is never a pull-request link. *)
Theorem links_injective (options : ValidOptions) :
  (forall h h', getCommitUrl options h = getCommitUrl options h' -> h = h')
  /\ (forall n n', getPrUrl options n = getPrUrl options n' -> n = n')
  /\ (forall h n, getCommitUrl options h <> getPrUrl options n).
Proof.
  unfold getCommitUrl, getPrUrl. split; [|split].
  - intros h h' H. now apply app_inv_head, app_inv_head in H.
  - intros n n' H. apply app_inv_head, app_inv_head in H.
    now apply number_to_string_inj.
  - intros h n H. apply app_inv_head in H. discriminate.
Qed.

Lemma links_injective_witness :
  js "abc1234567890" = js "abc1234567890".
Proof.
  exact (proj1 (links_injective {| repo := js "owner/repo" |})
           (js "abc1234567890") (js "abc1234567890") eq_refl).
Defined.

(** X2. [getShortSha] returns the first seven units of the hash: a prefix
    of the hash of length [min 7 (length h)]; a hash of at most seven units
    comes back whole, and shortening twice is shortening once. *)
Theorem getShortSha_prefix (h : str) :
  (exists t, h = getShortSha h ++ t)
  /\ length (getShortSha h) = Nat.min 7 (length h)
  /\ ((length h <= 7)%nat -> getShortSha h = h)
  /\ getShortSha (getShortSha h) = getShortSha h.
Proof.
  unfold getShortSha, slice0. split; [|split; [|split]].
  - exists (drop 7 h). now rewrite take_drop.
  - apply length_take.
  - intros H. now apply take_ge.
  - rewrite take_take. f_equal.
Qed.

Lemma getShortSha_prefix_witness : getShortSha (js "abc12") = js "abc12".
Proof.
  apply (proj1 (proj2 (proj2 (getShortSha_prefix (js "abc12"))))).
  vm_compute. lia.
Defined.

(** ** [validate] *)

(** X3. [validate] reads the [repo] property only: setting or removing
    any other property of the options object changes nothing. *)
Theorem validate_other_properties (props : gmap str jsval) (k : str) (v : jsval) :
  k <> js "repo" ->
  validate (JObject (<[k := v]> props)) = validate (JObject props)
  /\ validate (JObject (delete k props)) = validate (JObject props).
Proof.
  intros Hk. unfold validate. cbn [truthy get].
  now rewrite lookup_insert_ne, lookup_delete_ne.
Qed.

Lemma validate_other_properties_witness :
  validate (JObject (<[js "owner" := JString (js "me")]>
                       {[ js "repo" := JString (js "owner/repo") ]}))
  = validate (JObject {[ js "repo" := JString (js "owner/repo") ]}).
Proof.
  apply (validate_other_properties {[ js "repo" := JString (js "owner/repo") ]}
           (js "owner") (JString (js "me"))).
  vm_compute. discriminate.
Defined.

(** X4. A value that is no object is rejected as lacking a repo, whatever
    it is: also the string ["owner/repo"] itself, passed in place of the
    options object. *)
Theorem validate_not_an_object (options : jsval) :
  (forall props, options <> JObject props) ->
  validate options = Throws (MkError missing_repo_message).
Proof.
  intros H. unfold validate.
  destruct options as [| |b|n|s|props]; cbn [get truthy negb orb];
    try reflexivity; [now rewrite orb_true_r..|now specialize (H props)].
Qed.

Lemma validate_not_an_object_witness :
  validate (JString (js "owner/repo")) = Throws (MkError missing_repo_message).
Proof. apply validate_not_an_object. discriminate. Defined.

Lemma segment_unit_spec c :
  segment_unit c = true -> c <> chr "/" /\ is_space c = false.
Proof.
  unfold segment_unit. rewrite andb_true_iff, !negb_true_iff, N.eqb_neq. tauto.
Qed.

Lemma validated_repo options vo :
  validate options = Returns vo -> org_repo_form (repo vo).
Proof.
  unfold validate.
  destruct (negb (truthy options) || negb (truthy (get options (js "repo"))));
    [discriminate|].
  destruct (get options (js "repo")) as [| |b|n|s|props]; try discriminate.
  destruct (test noflags ORG_REPO_REGEX s) eqn:T; [|discriminate].
  intros [= <-]. now apply test_ORG_REPO_REGEX.
Qed.

(** X5. After [validate], the repository URL holds no white space and
    the repository identifier holds exactly one slash. *)
Theorem validated_url_clean (options : jsval) (vo : ValidOptions) :
  validate options = Returns vo ->
  forallb non_space (getRepoUrl vo) = true
  /\ length (filter (fun c => c = chr "/") (repo vo)) = 1%nat.
Proof.
  intros Hv. destruct (validated_repo _ _ Hv) as (a & b & E & _ & _ & Fa & Fb).
  assert (Hs : forall l, forallb segment_unit l = true ->
                 forallb non_space l = true
                 /\ filter (fun c => c = chr "/") l = []).
  { induction l as [|c l IH]; [auto|]. cbn [forallb]. intros H.
    apply andb_prop in H as [Hc Hl]. destruct (IH Hl) as [I1 I2].
    apply segment_unit_spec in Hc as [Hc1 Hc2]. split.
    - unfold non_space at 1. now rewrite Hc2, I1.
    - rewrite filter_cons_False by exact Hc1. exact I2. }
  destruct (Hs a Fa) as [A1 A2], (Hs b Fb) as [B1 B2].
  unfold getRepoUrl. rewrite E. split.
  - rewrite !forallb_app, A1, B1. reflexivity.
  - rewrite !filter_app, A2, B2. reflexivity.
Qed.

Lemma validated_url_clean_witness :
  forallb non_space (getRepoUrl {| repo := js "owner/repo" |}) = true
  /\ length (filter (fun c => c = chr "/") (repo {| repo := js "owner/repo" |})) = 1%nat.
Proof. exact (validated_url_clean owner_repo {| repo := js "owner/repo" |} eq_refl). Defined.

(** ** [getPrNumber] *)

(** What [getPrNumber] returns, by the trailing reference of the trimmed
    first line. *)
Lemma getPrNumber_cases (m : str) :
  (exists ds, pr_reference_form (trim (fst (split 10 m))) ds
              /\ getPrNumber (Some m) = Some (double_of_Z (digits_value ds)))
  \/ ((forall ds, ~ pr_reference_form (trim (fst (split 10 m))) ds)
      /\ getPrNumber (Some m) = None).
Proof.
  destruct m as [|c m].
  - right. split; [|reflexivity].
    intros ds (_ & _ & [[pre H]|(pre & ws & H & _)]); destruct pre; discriminate.
  - unfold getPrNumber. cbn [of_string truthy string_truthy negb from_option Datatypes.id].
    destruct (exec noflags PR_REFERENCE (trim (fst (split 10 (c :: m)))))
      as [[b e]|] eqn:E.
    + left. destruct (exec_PR_REFERENCE_sound _ _ _ E) as (ds & Hf & ->).
      exists ds. split; [exact Hf|].
      pose proof Hf as (Hne & Hd & _). destruct ds as [|d ds]; [congruence|].
      now rewrite parseInt_digits.
    + right. split; [|reflexivity]. intros ds Hf.
      apply exec_PR_REFERENCE_complete in Hf. rewrite E in Hf. now destruct Hf.
Qed.

Lemma getPrNumber_of_form m ds :
  pr_reference_form (trim (fst (split 10 m))) ds ->
  getPrNumber (Some m) = Some (double_of_Z (digits_value ds)).
Proof.
  intros Hf. destruct (getPrNumber_cases m) as [(ds' & Hf' & ->)|[Hno _]].
  - now rewrite (pr_reference_form_unique _ _ _ Hf Hf').
  - now apply Hno in Hf.
Qed.

Lemma digits_value_bound ds :
  forallb is_digit ds = true -> (digits_value ds < 10 ^ Z.of_nat (length ds))%Z.
Proof.
  intros Hd. unfold digits_value.
  assert (H : forall acc, (0 <= acc)%Z ->
            (fold_left (fun acc c => 10 * acc + Z.of_N (c - 48)) ds acc
             < (acc + 1) * 10 ^ Z.of_nat (length ds))%Z).
  { induction ds as [|c ds IH]; intros acc Ha; cbn [fold_left length].
    - rewrite Z.pow_0_r. lia.
    - cbn [forallb] in Hd. apply andb_prop in Hd as [Hc Hd].
      apply is_digit_range in Hc.
      eapply Z.lt_le_trans; [apply (IH Hd); lia|].
      rewrite Nat2Z.inj_succ, Z.pow_succ_r by lia.
      assert (0 < 10 ^ Z.of_nat (length ds))%Z by (apply Z.pow_pos_nonneg; lia).
      nia. }
  specialize (H 0%Z). lia.
Qed.

Lemma pr_reference_form_length line ds :
  pr_reference_form line ds -> (length ds <= length line)%nat.
Proof.
  intros (_ & _ & [[pre ->]|(pre & ws & -> & _)]);
    rewrite ?length_app; cbn [length]; rewrite ?length_app; lia.
Qed.

Lemma trim_length s : (length (trim s) <= length s)%nat.
Proof.
  unfold trim.
  destruct (trimEnd_prefix (trimStart s)) as (w & Hw & _).
  destruct (drop_while_suffix is_space s) as (u & Hu & _).
  fold (trimStart s) in Hu.
  apply (f_equal (@length N)) in Hw, Hu. rewrite length_app in Hw, Hu. lia.
Qed.

Lemma split_fst_length sep s : (length (fst (split sep s)) <= length s)%nat.
Proof.
  induction s as [|c s IH]; cbn [split length fst]; [lia|].
  destruct (split sep s) as [h r]. destruct (c =? sep); cbn [fst length] in *; lia.
Qed.

(** A number of at most 300 digits is far below the largest double. *)
Lemma double_of_Z_finite v :
  (0 <= v < 10 ^ 300)%Z -> exists z, double_of_Z v = Int z /\ (0 <= z)%Z.
Proof.
  intros [Hv Hb]. destruct (double_of_Z_nonneg v Hv) as [H|H]; [exact H|]. exfalso.
  revert H. unfold double_of_Z.
  destruct (Z.abs v <? 2 ^ 53)%Z eqn:Hs; [discriminate|].
  apply Z.ltb_ge in Hs. rewrite Z.abs_eq in * by exact Hv.
  set (e := (Z.log2 v - 52)%Z).
  set (q := Z.shiftr v e).
  set (q' := if (_ || _) then (q + 1)%Z else q).
  destruct (2 ^ 1024 <=? Z.shiftl q' e)%Z eqn:Hm; [|discriminate]. intros _.
  apply Z.leb_le in Hm.
  assert (Hpos : (0 < v)%Z) by (assert (0 < 2 ^ 53)%Z by reflexivity; lia).
  assert (H53 : (53 <= Z.log2 v)%Z) by now apply Z.log2_le_pow2.
  assert (H1000 : (Z.log2 v < 1000)%Z).
  { apply Z.log2_lt_pow2; [exact Hpos|].
    eapply Z.lt_trans; [exact Hb|reflexivity]. }
  assert (He : (1 <= e <= 947)%Z) by (unfold e; lia).
  assert (Hpe : (0 < 2 ^ e)%Z) by (apply Z.pow_pos_nonneg; lia).
  assert (Hq : (q < 2 ^ 53)%Z).
  { unfold q. rewrite Z.shiftr_div_pow2 by lia.
    apply Z.div_lt_upper_bound; [exact Hpe|].
    rewrite <- Z.pow_add_r by lia.
    replace (e + 53)%Z with (Z.succ (Z.log2 v)) by (unfold e; lia).
    now apply Z.log2_spec. }
  assert (Hq0 : (0 <= q)%Z) by (apply Z.shiftr_nonneg; lia).
  assert (Hq' : (0 <= q' <= 2 ^ 53)%Z) by (unfold q'; destruct (_ || _); lia).
  rewrite Z.shiftl_mul_pow2 in Hm by lia.
  assert (Hle : (q' * 2 ^ e <= 2 ^ 53 * 2 ^ 947)%Z).
  { apply Z.mul_le_mono_nonneg; try lia. apply Z.pow_le_mono_r; lia. }
  assert (Hlt : (2 ^ 53 * 2 ^ 947 < 2 ^ 1024)%Z) by reflexivity.
  lia.
Qed.

(** X6. A number that [getPrNumber] returns is never [NaN] and never
    negative, also for input such as [#-5]: it is an integer from zero
    on, or the positive infinity, and it is an integer whenever the
    message has at most 300 code units. *)
Theorem getPrNumber_natural (commitMessage : option str) (n : number) :
  getPrNumber commitMessage = Some n ->
  ((exists z, n = Int z /\ (0 <= z)%Z) \/ n = Infinity false)
  /\ (forall m, commitMessage = Some m -> (length m <= 300)%nat ->
        exists z, n = Int z /\ (0 <= z)%Z).
Proof.
  destruct commitMessage as [m|]; [|discriminate].
  destruct (getPrNumber_cases m) as [(ds & Hf & ->)|[_ ->]]; [|discriminate].
  intros [= <-]. split.
  - apply double_of_Z_nonneg, digits_value_nonneg.
  - intros ? [= <-] Hm. apply double_of_Z_finite.
    split; [apply digits_value_nonneg|].
    eapply Z.lt_le_trans; [apply digits_value_bound, Hf|].
    apply Z.pow_le_mono_r; [lia|].
    pose proof (pr_reference_form_length _ _ Hf).
    pose proof (trim_length (fst (split 10 m))).
    pose proof (split_fst_length 10 m). lia.
Qed.

Lemma getPrNumber_natural_witness :
  ((exists z, Int 42 = Int z /\ (0 <= z)%Z) \/ Int 42 = Infinity false)
  /\ (forall m, Some (js "fix: Update dependency #42") = Some m -> (length m <= 300)%nat ->
        exists z, Int 42 = Int z /\ (0 <= z)%Z).
Proof.
  exact (getPrNumber_natural (Some (js "fix: Update dependency #42")) (Int 42) eq_refl).
Defined.

Lemma split_cons_sep sep line tail :
  ~ In sep line -> fst (split sep (line ++ sep :: tail)) = line.
Proof.
  induction line as [|c l IH]; intros H; cbn [app split].
  - destruct (split sep tail). now rewrite N.eqb_refl.
  - assert (Hl : ~ In sep l) by (intros E; apply H; now right).
    specialize (IH Hl). destruct (split sep (l ++ sep :: tail)) as [h r].
    destruct (N.eqb_spec c sep) as [->|_]; [exfalso; apply H; now left|].
    cbn [fst] in *. now rewrite IH.
Qed.

(** X7. [getPrNumber] reads the first line only: whatever follows the
    first line feed of the message does not change its result. *)
Theorem getPrNumber_first_line_only (line tail : str) :
  ~ In 10 line ->
  getPrNumber (Some (line ++ 10 :: tail)) = getPrNumber (Some line).
Proof.
  intros H.
  assert (E : trim (fst (split 10 (line ++ 10 :: tail))) = trim (fst (split 10 line))).
  { now rewrite split_cons_sep, split_fst_no_sep. }
  destruct (getPrNumber_cases (line ++ 10 :: tail)) as [(ds & Hf & ->)|[Hno ->]].
  - rewrite E in Hf. symmetry. now apply getPrNumber_of_form.
  - destruct (getPrNumber_cases line) as [(ds & Hf & _)|[_ ->]]; [|reflexivity].
    rewrite <- E in Hf. now apply Hno in Hf.
Qed.

Lemma getPrNumber_first_line_only_witness :
  getPrNumber (Some (js "Add feature (#123)" ++ 10 :: 10 :: js "Resolves #456"))
  = getPrNumber (Some (js "Add feature (#123)")).
Proof.
  apply getPrNumber_first_line_only. vm_compute. intuition discriminate.
Defined.

Lemma trimStart_keeps_tail s c t :
  is_space c = false -> exists pre, trimStart (s ++ c :: t) = pre ++ c :: t.
Proof.
  intros Hc. unfold trimStart. induction s as [|a s IH]; cbn [app drop_while].
  - exists []. now rewrite Hc.
  - destruct (is_space a); [exact IH|now exists (a :: s)].
Qed.

Lemma trimEnd_keeps s c : is_space c = false -> trimEnd (s ++ [c]) = s ++ [c].
Proof.
  intros Hc. unfold trimEnd. rewrite rev_app_distr. cbn [rev app drop_while].
  rewrite Hc. change (c :: rev s) with (rev [c] ++ rev s).
  now rewrite <- rev_app_distr, rev_involutive.
Qed.

(** X8. Printing and reading agree: from a line that ends in [(#N)],
    with [N] the decimal numeral of a natural number [n] below 2^53 as
    [getPrUrl] prints it, [getPrNumber] returns [n], whatever stands
    before the reference on that line. *)
Theorem getPrNumber_reads_printed (title : str) (n : N) :
  ~ In 10 title ->
  n < 2 ^ 53 ->
  getPrNumber (Some (title ++ js " (#" ++ number_to_string (Int (Z.of_N n)) ++ js ")"))
  = Some (Int (Z.of_N n)).
Proof.
  intros Ht Hn53. destruct (number_to_string_digits n) as (Hne & Hd & Hv).
  set (ds := number_to_string (Int (Z.of_N n))) in *.
  change (js " (#") with ([32] ++ [chr "("; chr "#"]).
  change (js ")") with [chr ")"].
  rewrite <- (double_of_Z_exact (Z.of_N n)) by lia.
  rewrite <- Hv. apply getPrNumber_of_form.
  assert (Hn : ~ In 10 (title ++ ([32] ++ [chr "("; chr "#"]) ++ ds ++ [chr ")"])).
  { intros H. apply in_app_or in H as [H|H]; [now apply Ht|].
    apply in_app_or in H as [H|H].
    - destruct H as [H|[H|[H|[]]]]; discriminate.
    - apply in_app_or in H as [H|[H|[]]]; [|discriminate].
      revert H. eapply forallb_not_In; [exact Hd|reflexivity]. }
  rewrite (split_fst_no_sep _ _ Hn). cbn [fst].
  split; [exact Hne|]. split; [exact Hd|]. left.
  destruct (trimStart_keeps_tail (title ++ [32]) (chr "(") (chr "#" :: ds ++ [chr ")"])
              eq_refl) as [pre Hp].
  exists pre. unfold trim.
  replace (title ++ ([32] ++ [chr "("; chr "#"]) ++ ds ++ [chr ")"])
    with ((title ++ [32]) ++ chr "(" :: chr "#" :: ds ++ [chr ")"])
    by (now rewrite <- !app_assoc).
  rewrite Hp.
  replace (pre ++ chr "(" :: chr "#" :: ds ++ [chr ")"])
    with ((pre ++ chr "(" :: chr "#" :: ds) ++ [chr ")"])
    by (now rewrite <- app_assoc).
  now apply trimEnd_keeps.
Qed.

Lemma getPrNumber_reads_printed_witness :
  getPrNumber (Some (js "Fix a bug" ++ js " (#" ++ number_to_string (Int (Z.of_N 123))
                     ++ js ")"))
  = Some (Int (Z.of_N 123)).
Proof.
  apply getPrNumber_reads_printed; [vm_compute; intuition discriminate|reflexivity].
Defined.

(** ** [cleanSummary] *)

Lemma trim_head s c t : trim s = c :: t -> is_space c = false.
Proof.
  unfold trim. intros H.
  destruct (trimEnd_prefix (trimStart s)) as [w [Hs _]]. rewrite H in Hs.
  unfold trimStart in Hs. exact (drop_while_head _ _ _ _ Hs).
Qed.

Lemma trim_last s u c : trim s = u ++ [c] -> is_space c = false.
Proof.
  unfold trim, trimEnd. intros H.
  assert (E : drop_while is_space (rev (trimStart s)) = c :: rev u).
  { rewrite <- (rev_involutive (drop_while _ _)), H, rev_app_distr. reflexivity. }
  exact (drop_while_head _ _ _ _ E).
Qed.

Lemma cleanSummary_head summary c t :
  cleanSummary summary = c :: t -> is_space c = false.
Proof. apply trim_head. Qed.

(** X9. A cleaned summary neither starts nor ends with white space. *)
Theorem cleanSummary_trimmed (summary : str) :
  (forall c t, cleanSummary summary = c :: t -> is_space c = false)
  /\ (forall u c, cleanSummary summary = u ++ [c] -> is_space c = false).
Proof.
  split.
  - apply cleanSummary_head.
  - intros u c. apply trim_last.
Qed.

Lemma cleanSummary_trimmed_witness : is_space (chr "A") = false.
Proof.
  exact (proj1 (cleanSummary_trimmed (js "  pr: #123 Add feature  "))
           (chr "A") (js "dd feature") eq_refl).
Defined.

Lemma trim_sublist s : sublist (trim s) s.
Proof.
  unfold trim. destruct (trimEnd_prefix (trimStart s)) as [w [Hs _]].
  unfold trimStart in *. destruct (drop_while_suffix is_space s) as [v [Hv _]].
  rewrite Hv at 2. apply sublist_inserts_l.
  rewrite Hs at 2. apply sublist_inserts_r. reflexivity.
Qed.

Lemma removed_sublist text p every bef s out :
  removed text p every bef s out -> sublist out s.
Proof.
  induction 1.
  - constructor.
  - now apply sublist_skip.
  - apply sublist_inserts_l. reflexivity.
  - now apply sublist_inserts_l.
Qed.

Lemma PR_LINE_removed s : removed pr_text is_digit false [] s (replace im PR_LINE [] s).
Proof.
  apply (replace_removed im PR_LINE pr_text is_digit PR_LINE_sound PR_LINE_complete).
  apply line_text_nonempty.
Qed.

Lemma COMMIT_LINE_removed s :
  removed commit_text non_space false [] s (replace im COMMIT_LINE [] s).
Proof.
  apply (replace_removed im COMMIT_LINE commit_text non_space
           COMMIT_LINE_sound COMMIT_LINE_complete).
  apply line_text_nonempty.
Qed.

Lemma AUTHOR_LINE_removed s :
  removed author_text non_space true [] s (replace gim AUTHOR_LINE [] s).
Proof.
  apply (replace_removed gim AUTHOR_LINE author_text non_space
           AUTHOR_LINE_sound AUTHOR_LINE_complete).
  apply line_text_nonempty.
Qed.

Lemma cleanSummary_is_sublist summary : sublist (cleanSummary summary) summary.
Proof.
  unfold cleanSummary.
  etransitivity; [apply trim_sublist|].
  etransitivity; [exact (removed_sublist _ _ _ _ _ _ (AUTHOR_LINE_removed _))|].
  etransitivity; [exact (removed_sublist _ _ _ _ _ _ (COMMIT_LINE_removed _))|].
  exact (removed_sublist _ _ _ _ _ _ (PR_LINE_removed _)).
Qed.

Lemma cleanSummary_units summary c : In c (cleanSummary summary) -> In c summary.
Proof.
  intros Hc. apply list_elem_of_In.
  apply (sublist_subseteq _ _ (cleanSummary_is_sublist summary)).
  now apply list_elem_of_In.
Qed.

(** X10. [cleanSummary] only takes away: the cleaned summary is the
    summary with some units left out, the others in their order; so it
    is never longer and holds no unit the summary does not hold. *)
Theorem cleanSummary_sublist (summary : str) :
  sublist (cleanSummary summary) summary
  /\ (length (cleanSummary summary) <= length summary)%nat
  /\ (forall c, In c (cleanSummary summary) -> In c summary).
Proof.
  split; [apply cleanSummary_is_sublist|]. split.
  - apply sublist_length, cleanSummary_is_sublist.
  - apply cleanSummary_units.
Qed.

Lemma cleanSummary_sublist_witness : In (chr "A") (js "pr: #1 Add").
Proof.
  apply (proj2 (proj2 (cleanSummary_sublist (js "pr: #1 Add")))). vm_compute. auto.
Defined.

(** X11. A summary of white space only is cleaned to the empty string. *)
Theorem cleanSummary_blank (summary : str) :
  forallb is_space summary = true -> cleanSummary summary = [].
Proof.
  intros Hs.
  destruct (cleanSummary summary) as [|c t] eqn:E; [reflexivity|].
  pose proof (cleanSummary_head summary c t E) as Hc.
  assert (Hin : In c summary) by (apply cleanSummary_units; rewrite E; now left).
  rewrite forallb_forall in Hs. rewrite (Hs c Hin) in Hc. discriminate.
Qed.

Lemma cleanSummary_blank_witness : cleanSummary (js "  " ++ [10; 9]) = [].
Proof. apply cleanSummary_blank. reflexivity. Defined.

Lemma pr_text_colon m : pr_text m -> In (chr ":") m.
Proof.
  intros (u & v & -> & (a & x & -> & _ & (b & y & -> & _ & (c & z & -> & Hc & _))) & _).
  unfold unit in Hc. subst c. apply in_or_app. left.
  apply in_or_app. right. apply in_or_app. right. now left.
Qed.

Lemma commit_text_colon m : commit_text m -> In (chr ":") m.
Proof.
  intros (u & v & -> & (a & x & -> & _ & (b & y & -> & _ & (c & z & -> & Hc & _))) & _).
  unfold unit in Hc. subst c. apply in_or_app. left.
  apply in_or_app. right. apply in_or_app. right. now left.
Qed.

Lemma author_text_colon m : author_text m -> In (chr ":") m.
Proof.
  intros (u & v & -> & (a & x & -> & _ & (b & y & -> & _ & (c & z & -> & Hc & _))) & _).
  unfold unit in Hc. subst c. apply in_or_app. left.
  apply in_or_app. right. apply in_or_app. right. now left.
Qed.

(** X12. Every metadata reference needs its colon: a summary without a
    colon is only trimmed. *)
Theorem cleanSummary_without_colon (summary : str) :
  ~ In (chr ":") summary -> cleanSummary summary = trim summary.
Proof.
  intros Hn.
  assert (Hno : forall (text : str -> Prop),
            (forall m, text m -> In (chr ":") m) ->
            forall a m b, summary = a ++ m ++ b -> line_start (rev a) -> ~ text m).
  { intros text Ht a m b -> _ Hm. apply Hn.
    apply in_or_app. right. apply in_or_app. left. now apply Ht. }
  unfold cleanSummary.
  rewrite (replace_no_match im PR_LINE)
    by (apply (no_text_no_match im PR_LINE pr_text is_digit PR_LINE_sound);
        apply Hno, pr_text_colon).
  rewrite (replace_no_match im COMMIT_LINE)
    by (apply (no_text_no_match im COMMIT_LINE commit_text non_space COMMIT_LINE_sound);
        apply Hno, commit_text_colon).
  rewrite (replace_no_match gim AUTHOR_LINE)
    by (apply (no_text_no_match gim AUTHOR_LINE author_text non_space AUTHOR_LINE_sound);
        apply Hno, author_text_colon).
  reflexivity.
Qed.

Lemma cleanSummary_without_colon_witness :
  cleanSummary (js " pr #123 Add feature ") = trim (js " pr #123 Add feature ").
Proof. apply cleanSummary_without_colon. vm_compute. intuition discriminate. Defined.

(** ** [getDependencyReleaseLine] *)

Lemma not_in_app (c : N) a b : ~ In c a -> ~ In c b -> ~ In c (a ++ b).
Proof. intros Ha Hb H. apply in_app_or in H. tauto. Qed.

Lemma join_not_in (c : N) sep l :
  ~ In c sep -> Forall (fun x => ~ In c x) l -> ~ In c (join sep l).
Proof.
  intros Hs. induction 1 as [|x l Hx Hl IH]; [intros []|].
  destruct l as [|y l]; [exact Hx|].
  change (join sep (x :: y :: l)) with (x ++ sep ++ join sep (y :: l)).
  auto using not_in_app.
Qed.

Lemma split_app_sep sep x rest :
  ~ In sep x ->
  split sep (x ++ sep :: rest) = (x, fst (split sep rest) :: snd (split sep rest)).
Proof.
  induction x as [|c x IH]; intros H; cbn [app split].
  - destruct (split sep rest). now rewrite N.eqb_refl.
  - rewrite IH by (intros E; apply H; now right).
    destruct (N.eqb_spec c sep) as [->|_]; [exfalso; apply H; now left|reflexivity].
Qed.

(** Joining lines and splitting again gives the lines back. *)
Lemma split_join_lines sep xs : forall x,
  ~ In sep x -> Forall (fun l => ~ In sep l) xs ->
  split sep (join [sep] (x :: xs)) = (x, xs).
Proof.
  induction xs as [|y ys IH]; intros x Hx Hxs.
  - now apply split_fst_no_sep.
  - inversion Hxs as [|? ? Hy Hys]; subst.
    change (join [sep] (x :: y :: ys)) with (x ++ sep :: join [sep] (y :: ys)).
    rewrite split_app_sep by exact Hx. now rewrite (IH y Hy Hys).
Qed.

Lemma space_10 : is_space 10 = true.
Proof. reflexivity. Qed.

Lemma validated_repo_no_lf options vo :
  validate options = Returns vo -> ~ In 10 (repo vo).
Proof.
  intros Hv. destruct (validated_repo _ _ Hv) as (a & b & -> & _ & _ & Fa & Fb).
  assert (Hs : forall l, forallb segment_unit l = true -> ~ In 10 l).
  { intros l Hl. eapply forallb_not_In; [exact Hl|reflexivity]. }
  apply not_in_app; [now apply Hs|]. apply not_in_app; [|now apply Hs].
  intros [H|[]]. discriminate.
Qed.

Lemma take_not_in (c : N) n l : ~ In c l -> ~ In c (take n l).
Proof.
  intros H Hin. apply H. apply list_elem_of_In.
  apply (sublist_subseteq _ _ (sublist_take l n)). now apply list_elem_of_In.
Qed.

Ltac no_lf :=
  repeat first
    [ apply not_in_app
    | apply take_not_in
    | assumption
    | (vm_compute; intuition discriminate) ].

Lemma getCommitUrl_no_lf vo h :
  ~ In 10 (repo vo) -> ~ In 10 h -> ~ In 10 (getCommitUrl vo h).
Proof. intros Hr Hh. unfold getCommitUrl, getRepoUrl. no_lf. Qed.

(** X13. With valid options, at least one dependency bump and no line
    feed inside the package names, versions and commit hashes, the block
    has one line per bump after the header, in the order given, and ends
    without a line feed. *)
Theorem getDependencyReleaseLine_lines (changesets : list NewChangesetWithCommit)
    (dependenciesUpdated : list ModCompWithPackage) (options : jsval)
    (vo : ValidOptions) :
  validate options = Returns vo ->
  dependenciesUpdated <> [] ->
  (forall d, In d dependenciesUpdated -> ~ In 10 (name d) /\ ~ In 10 (newVersion d)) ->
  (forall c h, In c changesets -> commit c = Some h -> ~ In 10 h) ->
  exists out,
    getDependencyReleaseLine changesets dependenciesUpdated options = Returns out
    /\ split 10 out
       = (js "- Updated dependencies ["
          ++ join (js ", ") (omap (commit_link_plain vo) changesets) ++ js "]:",
          map (fun d => js "  - " ++ name d ++ js "@" ++ newVersion d)
            dependenciesUpdated).
Proof.
  intros Hv Hd Hdeps Hcs. eexists. split.
  - exact (getDependencyReleaseLine_header _ _ _ _ Hv Hd).
  - pose proof (validated_repo_no_lf _ _ Hv) as Hr.
    apply split_join_lines.
    + apply not_in_app; [no_lf|]. apply not_in_app; [|no_lf].
      apply join_not_in; [no_lf|].
      clear Hd Hdeps. induction changesets as [|c cs IH]; [constructor|].
      assert (IH' : Forall (fun x => ~ In 10 x) (omap (commit_link_plain vo) cs)).
      { apply IH. intros c' h Hc'. apply Hcs. now right. }
      cbn [omap list_omap]. unfold commit_link_plain at 1.
      destruct (commit c) as [h|] eqn:Ec; [|exact IH'].
      destruct (string_truthy h); [|exact IH'].
      constructor; [|exact IH'].
      assert (Hh : ~ In 10 h) by (apply (Hcs c h); [now left|exact Ec]).
      pose proof (getCommitUrl_no_lf vo h Hr Hh). unfold getShortSha, slice0. no_lf.
    + clear Hd. induction dependenciesUpdated as [|d ds IH]; [constructor|].
      constructor.
      * destruct (Hdeps d) as [H1 H2]; [now left|]. no_lf.
      * apply IH. intros d' Hd'. apply Hdeps. now right.
Qed.

Lemma getDependencyReleaseLine_lines_witness :
  exists out,
    getDependencyReleaseLine [fix_a_bug (Some (js "abc1234567890"))] [pkg_1] owner_repo
    = Returns out
    /\ split 10 out
       = (js "- Updated dependencies ["
          ++ join (js ", ") (omap (commit_link_plain {| repo := js "owner/repo" |})
                               [fix_a_bug (Some (js "abc1234567890"))]) ++ js "]:",
          map (fun d => js "  - " ++ name d ++ js "@" ++ newVersion d) [pkg_1]).
Proof.
  apply (getDependencyReleaseLine_lines [fix_a_bug (Some (js "abc1234567890"))] [pkg_1]
           owner_repo {| repo := js "owner/repo" |} eq_refl).
  - discriminate.
  - intros d [<-|[]]. split; vm_compute; intuition discriminate.
  - intros c h [<-|[]] [= <-]. vm_compute. intuition discriminate.
Defined.

(** X14. [getDependencyReleaseLine] validates before anything else: with
    options that [validate] rejects it throws that error also when there
    is nothing to list, and with valid options and no dependency bump it
    returns the empty string, whatever the change records are. *)
Theorem getDependencyReleaseLine_validates_first
    (changesets : list NewChangesetWithCommit)
    (dependenciesUpdated : list ModCompWithPackage) (options : jsval) :
  (forall e, validate options = Throws e ->
     getDependencyReleaseLine changesets dependenciesUpdated options = Throws e)
  /\ (forall vo, validate options = Returns vo ->
        getDependencyReleaseLine changesets [] options = Returns [])
  /\ (forall vo, validate options = Returns vo -> dependenciesUpdated <> [] ->
        getDependencyReleaseLine changesets dependenciesUpdated options <> Returns []).
Proof.
  split; [|split].
  - intros e He. unfold getDependencyReleaseLine. now rewrite He.
  - intros vo Hv. unfold getDependencyReleaseLine. now rewrite Hv.
  - intros vo Hv Hd. rewrite (getDependencyReleaseLine_header _ _ _ _ Hv Hd).
    destruct dependenciesUpdated as [|d ds]; [congruence|].
    destruct ds; discriminate.
Qed.

Lemma getDependencyReleaseLine_validates_first_witness :
  getDependencyReleaseLine [] [] (JObject ∅) = Throws (MkError missing_repo_message).
Proof.
  exact (proj1 (getDependencyReleaseLine_validates_first [] [] (JObject ∅))
           (MkError missing_repo_message) eq_refl).
Defined.

(** ** [getReleaseLine]: failures, calls and warnings *)

Lemma getReleaseLine_no_repository w changeset type options vo e :
  validate options = Returns vo ->
  discover w = Throws e ->
  run (getReleaseLine w changeset type options)
  = (Throws (MkError (js "Repository.discover failed: " ++ err_message e)), [Discover]).
Proof. intros Hv Hd. now rewrite (getReleaseLine_run _ _ _ _ _ Hv), Hd. Qed.

(** X15. [getReleaseLine] fails in two cases only. With options that
    [validate] rejects it throws that error before it looks for the
    repository or prints anything. With valid options and no repository
    to be discovered it throws the cause behind the text
    ["Repository.discover failed: "], for every change record, also one
    whose commit hash alone would give the link, and looks up no commit.
    In every other case it returns a line: no error of the commit lookup
    gets out. *)
Theorem getReleaseLine_failures (w : World) (changeset : NewChangesetWithCommit)
    (type : VersionType) (options : jsval) :
  (forall e, validate options = Throws e ->
     run (getReleaseLine w changeset type options) = (Throws e, []))
  /\ (forall vo e, validate options = Returns vo -> discover w = Throws e ->
        run (getReleaseLine w changeset type options)
        = (Throws (MkError (js "Repository.discover failed: " ++ err_message e)),
           [Discover]))
  /\ (forall vo r, validate options = Returns vo -> discover w = Returns r ->
        exists out, fst (run (getReleaseLine w changeset type options)) = Returns out).
Proof.
  split; [|split].
  - intros e Hv. unfold run, getReleaseLine. unfold bind at 1, lift at 1. now rewrite Hv.
  - intros vo e. apply getReleaseLine_no_repository.
  - intros vo r Hv Hd.
    destruct (getReleaseLine_returns w r changeset type options vo Hv Hd) as [m Hm].
    eauto.
Qed.

Lemma getReleaseLine_failures_witness :
  run (getReleaseLine world_without_repository (fix_a_bug (Some (js "abc1234567890")))
         patch owner_repo)
  = (Throws (MkError (js "Repository.discover failed: could not find repository")),
     [Discover]).
Proof.
  exact (proj1 (proj2 (getReleaseLine_failures world_without_repository
                         (fix_a_bug (Some (js "abc1234567890"))) patch owner_repo))
           {| repo := js "owner/repo" |} (MkError (js "could not find repository"))
           eq_refl eq_refl).
Defined.

Lemma resolve_trace r changeset tr :
  snd (resolve r changeset tr) = tr ++ lookup_events r changeset.
Proof.
  unfold resolve, lookup_events, lookup_warning, try_catch, readCommitMsg, bind, emit,
    lift, ret, console_warn, emit.
  destruct (commit changeset) as [h|]; cbn [of_string truthy];
    [|now rewrite app_nil_r].
  destruct (string_truthy h); [|now rewrite app_nil_r].
  cbn [from_option Datatypes.id].
  destruct (findCommit r h) as [[c|]|e]; cbn [snd]; [| |now rewrite <- app_assoc]; [|reflexivity].
  destruct (message c) as [m|e]; cbn [snd].
  - destruct (truthy (of_string m)); cbn [snd]; now rewrite <- app_assoc.
  - now rewrite <- !app_assoc.
Qed.

Lemma getReleaseLine_trace w r changeset type options vo :
  validate options = Returns vo -> discover w = Returns r ->
  snd (run (getReleaseLine w changeset type options))
  = Discover :: shallow_warning w r ++ lookup_events r changeset.
Proof.
  intros Hv Hd. rewrite (getReleaseLine_run _ _ _ _ _ Hv), Hd.
  pose proof (resolve_trace r changeset ([Discover] ++ shallow_warning w r)) as H.
  destruct (resolve r changeset ([Discover] ++ shallow_warning w r)) as [[m|e] tr];
    cbn [snd] in *; now rewrite H.
Qed.

Lemma shallow_warning_events w r ev :
  In ev (shallow_warning w r) -> exists a, ev = Warn [LogString a].
Proof.
  unfold shallow_warning. destruct (isShallow r); [|intros []].
  destruct (truthy (of_string (GITHUB_ACTION w))); intros [<-|[]]; eauto.
Qed.

Ltac lookup_cases r changeset :=
  unfold lookup_events;
  destruct (commit changeset) as [[|? ?]|]; cbn [string_truthy];
  try (destruct (findCommit r _) as [[cm|]|err] eqn:Ef;
       try (destruct (message cm) as [msg|err] eqn:Em)).

Lemma lookup_events_count r changeset :
  (length (List.filter is_lookup (lookup_events r changeset)) <= 1)%nat.
Proof. lookup_cases r changeset; cbn; lia. Qed.

Lemma lookup_events_no_discover r changeset : ~ In Discover (lookup_events r changeset).
Proof. lookup_cases r changeset; cbn; intuition discriminate. Qed.

Lemma lookup_events_find r changeset h :
  In (FindCommit h) (lookup_events r changeset) -> commit changeset = Some h /\ h <> [].
Proof.
  lookup_cases r changeset; cbn [In]; intros H; decompose [or] H; try discriminate;
    try contradiction;
    match goal with E : FindCommit _ = FindCommit _ |- _ => injection E as <- end;
    (split; [reflexivity|discriminate]).
Qed.

Lemma lookup_events_warning r changeset h e :
  In (lookup_warning h e) (lookup_events r changeset) ->
  commit changeset = Some h /\ lookup_throws r h e.
Proof.
  unfold lookup_throws.
  lookup_cases r changeset; cbn [In]; intros H; decompose [or] H; try discriminate;
    try contradiction;
    match goal with E : lookup_warning _ _ = lookup_warning _ _ |- _ =>
      unfold lookup_warning in E; injection E as Hh He end;
    apply (app_inv_tail (js ":") (_ :: _)) in Hh; subst; eauto.
Qed.

(** X16. What a call of [getReleaseLine] with valid options does outside:
    it discovers the repository once, before anything else; it looks up
    at most one commit, and only the commit of the change record, when
    that is a non-empty hash and the repository was found; and it prints
    the warning about a failed lookup only when the lookup threw, with the
    error thrown. *)
Theorem getReleaseLine_events (w : World) (changeset : NewChangesetWithCommit)
    (type : VersionType) (options : jsval) (vo : ValidOptions) :
  validate options = Returns vo ->
  (exists rest, snd (run (getReleaseLine w changeset type options)) = Discover :: rest
                /\ ~ In Discover rest)
  /\ (length (List.filter is_lookup (snd (run (getReleaseLine w changeset type options))))
      <= 1)%nat
  /\ (forall h, In (FindCommit h) (snd (run (getReleaseLine w changeset type options))) ->
        commit changeset = Some h /\ h <> [] /\ exists r, discover w = Returns r)
  /\ (forall h e,
        In (lookup_warning h e) (snd (run (getReleaseLine w changeset type options))) ->
        commit changeset = Some h
        /\ exists r, discover w = Returns r /\ lookup_throws r h e).
Proof.
  intros Hv. destruct (discover w) as [r|e0] eqn:Hd.
  2:{ rewrite (getReleaseLine_no_repository _ _ _ _ _ _ Hv Hd). cbn [snd].
      split; [exists []; split; [reflexivity|intros []]|].
      split; [cbn; lia|].
      split; [intros h [H|[]]; discriminate|intros h e [H|[]]; discriminate]. }
  rewrite (getReleaseLine_trace _ _ _ _ _ _ Hv Hd).
  assert (Hsw : forall ev, In ev (shallow_warning w r) -> exists a, ev = Warn [LogString a])
    by apply shallow_warning_events.
  assert (Hfs : List.filter is_lookup (shallow_warning w r) = []).
  { unfold shallow_warning. destruct (isShallow r); [|reflexivity].
    destruct (truthy (of_string (GITHUB_ACTION w))); reflexivity. }
  split; [|split; [|split]].
  - eexists. split; [reflexivity|]. intros H. apply in_app_or in H as [H|H].
    + apply Hsw in H as [a H]. discriminate.
    + now apply lookup_events_no_discover in H.
  - cbn [List.filter is_lookup]. rewrite List.filter_app, Hfs.
    apply lookup_events_count.
  - intros h [H|H]; [discriminate|]. apply in_app_or in H as [H|H].
    + apply Hsw in H as [a H]. discriminate.
    + apply lookup_events_find in H as [H1 H2]. eauto.
  - intros h e [H|H]; [discriminate|]. apply in_app_or in H as [H|H].
    + apply Hsw in H as [a H]. discriminate.
    + apply lookup_events_warning in H as [H1 H2]. eauto.
Qed.

Lemma getReleaseLine_events_witness :
  commit (fix_a_bug (Some (js "abc1234567890"))) = Some (js "abc1234567890")
  /\ exists r, discover (world_with failing_repository) = Returns r
               /\ lookup_throws r (js "abc1234567890") (MkError (js "Git error")).
Proof.
  apply (proj2 (proj2 (proj2 (getReleaseLine_events (world_with failing_repository)
           (fix_a_bug (Some (js "abc1234567890"))) patch owner_repo
           {| repo := js "owner/repo" |} eq_refl)))).
  vm_compute. auto.
Defined.

(** ** [getReleaseLine]: the line returned *)

(** X17. The line does not depend on the clone being shallow nor on
    [GITHUB_ACTION]: two calls that find repositories with the same
    commits return the same line. *)
Theorem getReleaseLine_shallow_irrelevant (w w' : World) (r r' : Repository)
    (changeset : NewChangesetWithCommit) (type : VersionType) (options : jsval)
    (vo : ValidOptions) :
  validate options = Returns vo ->
  discover w = Returns r -> discover w' = Returns r' ->
  (forall h, findCommit r h = findCommit r' h) ->
  fst (run (getReleaseLine w changeset type options))
  = fst (run (getReleaseLine w' changeset type options)).
Proof.
  intros Hv Hd Hd' Hf.
  rewrite (getReleaseLine_value _ _ _ _ _ _ Hv Hd),
    (getReleaseLine_value _ _ _ _ _ _ Hv Hd').
  unfold resolved_message. destruct (commit changeset) as [h|]; [|reflexivity].
  now rewrite Hf.
Qed.

Lemma getReleaseLine_shallow_irrelevant_witness :
  fst (run (getReleaseLine
              {| discover := Returns {| isShallow := true;
                                        findCommit := findCommit failing_repository |};
                 GITHUB_ACTION := Some (js "run1") |}
              (fix_a_bug (Some (js "abc1234567890"))) patch owner_repo))
  = fst (run (getReleaseLine (world_with failing_repository)
                (fix_a_bug (Some (js "abc1234567890"))) patch owner_repo)).
Proof.
  apply (getReleaseLine_shallow_irrelevant _ _
           {| isShallow := true; findCommit := findCommit failing_repository |}
           failing_repository _ _ _ {| repo := js "owner/repo" |});
    reflexivity.
Defined.

(** X18. A lookup that finds no commit, or a commit without a message,
    gives the commit-hash suffix as a failed lookup does, but without a
    warning. *)
Theorem getReleaseLine_nothing_found (w : World) (r : Repository)
    (changeset : NewChangesetWithCommit) (type : VersionType) (options : jsval)
    (vo : ValidOptions) (h : str) :
  validate options = Returns vo ->
  discover w = Returns r ->
  commit changeset = Some h -> h <> [] ->
  (findCommit r h = Returns None
   \/ exists c, findCommit r h = Returns (Some c)
        /\ (message c = Returns None \/ message c = Returns (Some []))) ->
  fst (run (getReleaseLine w changeset type options))
  = Returns (release_line (fst (split 10 (cleanSummary (summary changeset))))
               (snd (split 10 (cleanSummary (summary changeset)))) (commit_link vo h))
  /\ forall h' e,
       ~ In (lookup_warning h' e) (snd (run (getReleaseLine w changeset type options))).
Proof.
  intros Hv Hd Hc Hh Hf. split.
  - rewrite (getReleaseLine_value _ _ _ _ _ _ Hv Hd).
    assert (E : resolved_message r changeset = None).
    { unfold resolved_message. rewrite Hc. destruct (string_truthy h); [|reflexivity].
      destruct Hf as [->|(c & -> & [->| ->])]; reflexivity. }
    rewrite E, Hc. unfold getPrNumber, getSuffix, commit_link. cbn [of_string truthy negb].
    destruct h; [congruence|reflexivity].
  - intros h' e H. rewrite (getReleaseLine_trace _ _ _ _ _ _ Hv Hd) in H.
    destruct H as [H|H]; [discriminate|]. apply in_app_or in H as [H|H].
    + apply shallow_warning_events in H as [a H]. discriminate.
    + apply lookup_events_warning in H as [H1 [H2|(c & H2 & H3)]].
      * rewrite Hc in H1. injection H1 as <-.
        destruct Hf as [Hf|(c & Hf & _)]; congruence.
      * rewrite Hc in H1. injection H1 as <-.
        destruct Hf as [Hf|(c' & Hf & [Hm|Hm])]; congruence.
Qed.

Lemma getReleaseLine_nothing_found_witness :
  fst (run (getReleaseLine
              (world_with {| isShallow := false; findCommit := fun _ => Returns None |})
              (fix_a_bug (Some (js "abc1234567890"))) patch owner_repo))
  = Returns (release_line (js "Fix a bug") []
               (commit_link {| repo := js "owner/repo" |} (js "abc1234567890"))).
Proof.
  refine (proj1 (getReleaseLine_nothing_found
                   (world_with {| isShallow := false; findCommit := fun _ => Returns None |})
                   {| isShallow := false; findCommit := fun _ => Returns None |}
                   (fix_a_bug (Some (js "abc1234567890"))) patch owner_repo
                   {| repo := js "owner/repo" |} (js "abc1234567890")
                   eq_refl eq_refl eq_refl _ _)).
  - discriminate.
  - left. reflexivity.
Defined.

(** X19. The pull request of the commit message wins: when the lookup
    returns a message in which [getPrNumber] finds a number other than
    [0], the suffix is the link to that pull request, whatever the commit
    hash and whatever reference the summary itself carried. *)
Theorem getReleaseLine_pr_link (w : World) (r : Repository) (c : Commit)
    (changeset : NewChangesetWithCommit) (type : VersionType) (options : jsval)
    (vo : ValidOptions) (h m : str) (n : number) :
  validate options = Returns vo ->
  discover w = Returns r ->
  commit changeset = Some h -> h <> [] ->
  findCommit r h = Returns (Some c) -> message c = Returns (Some m) ->
  getPrNumber (Some m) = Some n -> number_truthy n = true ->
  fst (run (getReleaseLine w changeset type options))
  = Returns (release_line (fst (split 10 (cleanSummary (summary changeset))))
               (snd (split 10 (cleanSummary (summary changeset)))) (pr_link vo n)).
Proof.
  intros Hv Hd Hc Hh Hf Hm Hp Hn.
  rewrite (getReleaseLine_value _ _ _ _ _ _ Hv Hd).
  assert (E : getPrNumber (resolved_message r changeset) = Some n).
  { unfold resolved_message. rewrite Hc, Hf, Hm.
    destruct h; [congruence|]. cbn [string_truthy].
    destruct m as [|c0 m]; [discriminate|]. cbn [string_truthy].
    now rewrite getPrNumber_first_line. }
  rewrite E. unfold getSuffix, pr_link. now rewrite Hn.
Qed.

Lemma getReleaseLine_pr_link_witness :
  fst (run (getReleaseLine (world_with (plain_repository (js "Add feature (#789)")))
              {| id := js "changeset-1"; commit := Some (js "abc1234567890");
                 summary := js "PR: #123 Add feature"; releases := [] |}
              minor owner_repo))
  = Returns (release_line (js "Add feature") []
               (pr_link {| repo := js "owner/repo" |} (Int 789))).
Proof.
  refine (getReleaseLine_pr_link
            (world_with (plain_repository (js "Add feature (#789)")))
            (plain_repository (js "Add feature (#789)"))
            {| message := Returns (Some (js "Add feature (#789)")) |}
            {| id := js "changeset-1"; commit := Some (js "abc1234567890");
               summary := js "PR: #123 Add feature"; releases := [] |}
            minor owner_repo {| repo := js "owner/repo" |} (js "abc1234567890")
            (js "Add feature (#789)") (Int 789)
            eq_refl eq_refl eq_refl _ eq_refl eq_refl eq_refl eq_refl).
  discriminate.
Defined.

Lemma number_to_string_no_lf n : ~ In 10 (number_to_string n).
Proof.
  assert (Hu : forall d, ~ In 10 (js (NilZero.string_of_uint d))).
  { intros d. destruct d; try (intros [H|[]]; discriminate);
      (eapply forallb_not_In; [apply (uint_digits (_ d))|reflexivity]). }
  destruct n as [|[]|z]; cbn [number_to_string];
    try solve [vm_compute; intuition discriminate].
  destruct (Z.to_int z) as [d|d]; cbn [NilZero.string_of_int]; [apply Hu|].
  rewrite js_cons. intros [H|H]; [discriminate|now apply Hu in H].
Qed.

Lemma getSuffix_no_lf pr commitSha vo :
  ~ In 10 (repo vo) -> (forall h, commitSha = Some h -> ~ In 10 h) ->
  ~ In 10 (getSuffix pr commitSha vo).
Proof.
  intros Hr Hh.
  assert (Hc : ~ In 10 match commitSha with
                       | Some sha => if string_truthy sha then commit_link vo sha else []
                       | None => []
                       end).
  { destruct commitSha as [sha|]; [|intros []].
    destruct (string_truthy sha); [|intros []].
    pose proof (Hh sha eq_refl) as Hs.
    pose proof (getCommitUrl_no_lf vo sha Hr Hs).
    unfold commit_link, getShortSha, slice0. no_lf. }
  unfold getSuffix. destruct pr as [n|]; [|exact Hc].
  destruct (number_truthy n); [|exact Hc].
  pose proof (number_to_string_no_lf n) as Hn.
  unfold getPrUrl, getRepoUrl. no_lf.
Qed.

(** X20. The lines of the release line returned, when the commit hash
    holds no line feed: an empty first line, the bullet line that ends in
    the suffix [getSuffix] makes of the number read in the commit message
    looked up and of the commit hash, and then the remaining lines of the
    cleaned summary, each behind two spaces; with no remaining line the
    output ends in a line feed, that is in one more, empty, line. *)
Theorem getReleaseLine_lines (w : World) (r : Repository)
    (changeset : NewChangesetWithCommit) (type : VersionType) (options : jsval)
    (vo : ValidOptions) :
  validate options = Returns vo ->
  discover w = Returns r ->
  (forall h, commit changeset = Some h -> ~ In 10 h) ->
  exists out,
    fst (run (getReleaseLine w changeset type options)) = Returns out
    /\ split 10 out
       = ([], (js "- " ++ fst (split 10 (cleanSummary (summary changeset)))
               ++ getSuffix (getPrNumber (resolved_message r changeset))
                    (commit changeset) vo)
              :: match snd (split 10 (cleanSummary (summary changeset))) with
                 | [] => [[]]
                 | l => map (fun x => js "  " ++ x) l
                 end).
Proof.
  intros Hv Hd Hh.
  rewrite (getReleaseLine_value _ _ _ _ _ _ Hv Hd).
  eexists. split; [reflexivity|]. unfold release_line.
  pose proof (split_no_sep 10 (cleanSummary (summary changeset))) as Hl.
  inversion Hl as [|? ? Hfirst Hrest]; subst.
  pose proof (getSuffix_no_lf (getPrNumber (resolved_message r changeset))
                (commit changeset) vo (validated_repo_no_lf _ _ Hv) Hh) as Hs.
  set (first := fst (split 10 (cleanSummary (summary changeset)))) in *.
  set (rest := snd (split 10 (cleanSummary (summary changeset)))) in *.
  set (suffix := getSuffix _ _ _) in *.
  assert (Hb : ~ In 10 (js "- " ++ first ++ suffix)) by no_lf.
  assert (Hi : Forall (fun l => ~ In 10 l) (map (fun x => js "  " ++ x) rest)).
  { clearbody rest. clear Hl. induction Hrest as [|x l Hx Hl IH]; constructor; [no_lf|exact IH]. }
  destruct rest as [|x l].
  - replace ([10] ++ js "- " ++ first ++ suffix ++ [10]
             ++ join [10] (map (fun x0 => js "  " ++ x0) []))
      with (join [10] [[]; js "- " ++ first ++ suffix; []]).
    + apply split_join_lines; [intros []|]. repeat constructor; [exact Hb|intros []].
    + cbn [map join app]. now rewrite <- !app_assoc.
  - replace ([10] ++ js "- " ++ first ++ suffix ++ [10]
             ++ join [10] (map (fun x0 => js "  " ++ x0) (x :: l)))
      with (join [10] ([] :: (js "- " ++ first ++ suffix)
                          :: map (fun x0 => js "  " ++ x0) (x :: l))).
    + apply split_join_lines; [intros []|]. constructor; [exact Hb|exact Hi].
    + cbn [map join app]. now rewrite <- !app_assoc.
Qed.

Lemma getReleaseLine_lines_witness :
  exists out,
    fst (run (getReleaseLine (world_with (plain_repository (js "Fix a bug (#123)")))
                (fix_a_bug (Some (js "abc1234567890"))) patch owner_repo))
    = Returns out
    /\ split 10 out
       = ([], [js "- Fix a bug ([#123](https://github.com/owner/repo/pull/123))"; []]).
Proof.
  apply (getReleaseLine_lines (world_with (plain_repository (js "Fix a bug (#123)")))
           (plain_repository (js "Fix a bug (#123)"))
           (fix_a_bug (Some (js "abc1234567890"))) patch
           owner_repo {| repo := js "owner/repo" |}); [reflexivity|reflexivity|].
  intros h [= <-]. vm_compute. intuition discriminate.
Defined.

(** ** [getRepository] *)

(** X21. [getRepository] fails exactly when discovery fails, with the
    cause behind ["Repository.discover failed: "]; otherwise it returns
    the repository discovered, after one warning when the clone is shallow
    and none when it is not; an empty [GITHUB_ACTION] selects the same
    warning as an unset one. *)
Theorem getRepository_outcome (w : World) :
  (forall e, discover w = Throws e ->
     run (getRepository w)
     = (Throws (MkError (js "Repository.discover failed: " ++ err_message e)), [Discover]))
  /\ (forall r, discover w = Returns r ->
        fst (run (getRepository w)) = Returns r
        /\ exists ws, snd (run (getRepository w)) = Discover :: ws
             /\ length ws = (if isShallow r then 1 else 0)%nat
             /\ forall ev, In ev ws -> exists a, ev = Warn [LogString a])
  /\ run (getRepository {| discover := discover w; GITHUB_ACTION := Some [] |})
     = run (getRepository {| discover := discover w; GITHUB_ACTION := None |}).
Proof.
  unfold run. split; [|split].
  - intros e He. now rewrite getRepository_run, He.
  - intros r Hr. rewrite getRepository_run, Hr. split; [reflexivity|].
    exists (shallow_warning w r). split; [reflexivity|]. split.
    + unfold shallow_warning. destruct (isShallow r); [|reflexivity].
      now destruct (truthy (of_string (GITHUB_ACTION w))).
    + apply shallow_warning_events.
  - rewrite !getRepository_run. cbn [discover].
    destruct (discover w) as [r|e]; reflexivity.
Qed.

Lemma getRepository_outcome_witness :
  run (getRepository world_without_repository)
  = (Throws (MkError (js "Repository.discover failed: could not find repository")),
     [Discover]).
Proof.
  exact (proj1 (getRepository_outcome world_without_repository)
           (MkError (js "could not find repository")) eq_refl).
Defined.
